(** * The recompilation patcher: patch engine and driver

    A shallow embedding of [Patcher/Patcher.cpp] (the patch engine) and of
    [Main.cpp] (the command-line driver), followed by the properties that
    the design document states about them.

    Conventions of the embedding:
    - a [std::string] or [std::string_view] is a list of bytes;
    - a [size_t] position inside a string is a [nat] (it is bounded by the
      length of the string it indexes), and [npos] is [None];
    - the [size_t] brace counter of the function-body scan is a [Z] whose
      increments and decrements wrap modulo [2^64];
    - a function that mutates [std::string &file] returns the new contents. *)

From Stdlib Require Import List ZArith Lia Bool Arith.
From Stdlib Require Import Strings.Byte.
Import ListNotations.

(** ** Byte strings *)

Definition bytes := list byte.

Inductive byte_seq := seq_nil | seq_cons (b : byte) (r : byte_seq).

Fixpoint seq_of_list (l : list byte) : byte_seq :=
  match l with
  | [] => seq_nil
  | b :: r => seq_cons b (seq_of_list r)
  end.

Fixpoint list_of_seq (s : byte_seq) : list byte :=
  match s with
  | seq_nil => []
  | seq_cons b r => b :: list_of_seq r
  end.

Declare Scope bytes_scope.
Delimit Scope bytes_scope with bytes.
#[local] Set Warnings "-via-type-remapping,-via-type-mismatch".
String Notation bytes seq_of_list list_of_seq
  (via byte_seq mapping [[nil] => seq_nil, [cons] => seq_cons]) : bytes_scope.
#[local] Set Warnings "via-type-remapping,via-type-mismatch".
Open Scope bytes_scope.

(** The double quote and the line feed, spliced into literals. *)
Definition dq : bytes := [x22].
Definition nl : bytes := [x0a].

(** ** The operations of [std::string] that the program uses *)

Module StdString.

(** [s.empty()] *)
Definition empty (s : bytes) : bool :=
  match s with
  | [] => true
  | _ :: _ => false
  end.

(** Does [hay] begin with [needle]? *)
Fixpoint starts_with (needle hay : bytes) : bool :=
  match needle, hay with
  | [], _ => true
  | _ :: _, [] => false
  | a :: needle', b :: hay' => Byte.eqb a b && starts_with needle' hay'
  end.

(** [hay.find(needle)]: the lowest position at which [needle] occurs in
    [hay], [None] for [npos].  The empty needle is found at position 0. *)
Fixpoint find (needle hay : bytes) : option nat :=
  if starts_with needle hay then Some 0
  else match hay with
       | [] => None
       | _ :: hay' => option_map S (find needle hay')
       end.

(** [s.replace(pos, count, r)] for [pos <= s.size()]: the [count] bytes
    from [pos] (fewer when the string ends first) give way to [r].  Every
    call of the program has [pos <= s.size()] (lemmas [find_le] and
    [FindExplicitFunctionBody_bounds]), so the [std::out_of_range] case
    never arises. *)
Definition replace (s : bytes) (pos count : nat) (r : bytes) : bytes :=
  firstn pos s ++ r ++ skipn (pos + count) s.

(** The string that a character pointer [p] denotes: the bytes before the
    first NUL.  This is what the constructor [std::string(p)] stores and
    what [printf] prints for a [%s] conversion. *)
Fixpoint c_str (mem : bytes) : bytes :=
  match mem with
  | [] => []
  | b :: mem' => if Byte.eqb b x00 then [] else b :: c_str mem'
  end.

End StdString.

(** ** Patcher/Patcher.hpp and Patcher/Patcher.cpp *)

Module patcher.
Import StdString.

(** [enum class Type] *)
Inductive Type_ :=
| ReplaceOne        (* finds and replaces one occurrence in a file *)
| ExplicitFunction. (* replaces the definition of [function <NAME>(...) { ... }] *)

(** [struct Descriptor] *)
Record Descriptor := mkDescriptor {
  type : Type_;
  token : bytes;
  replacement : bytes
}.

(** [size_t] arithmetic of the brace counter. *)
Definition size_t_modulus : Z := 2 ^ 64.
Definition size_t_incr (n : Z) : Z := ((n + 1) mod size_t_modulus)%Z.
Definition size_t_decr (n : Z) : Z := ((n - 1) mod size_t_modulus)%Z.

(** [std::format("function {}(", function)] *)
Definition format_function (function : bytes) : bytes :=
  "function " ++ function ++ "(".

(** The variables of the scanning loop of [FindExplicitFunctionBody]. *)
Record ScanState := mkScan {
  begin : nat;
  end_ : nat;
  foundBegin : bool;
  depth : Z
}.

(** One execution of the loop body on the byte [haystack[end]], followed by
    the [++end] of the loop header. *)
Definition scan_body (c : byte) (st : ScanState) : ScanState :=
  if Byte.eqb c "{" then
    {| begin := if foundBegin st then begin st else end_ st;
       end_ := S (end_ st);
       foundBegin := true;
       depth := size_t_incr (depth st) |}
  else if Byte.eqb c "}" then
    {| begin := begin st;
       end_ := S (end_ st);
       foundBegin := foundBegin st;
       depth := size_t_decr (depth st) |}
  else
    {| begin := begin st;
       end_ := S (end_ st);
       foundBegin := foundBegin st;
       depth := depth st |}.

(** The loop
    [for (size_t depth {}; end < haystack.size() && !(foundBegin && depth == 0); ++end)],
    run over [rest], the bytes of the haystack from index [end] on. *)
Fixpoint scan (rest : bytes) (st : ScanState) : ScanState :=
  match rest with
  | [] => st
  | c :: rest' =>
      if foundBegin st && (depth st =? 0)%Z then st
      else scan rest' (scan_body c st)
  end.

(** [FindExplicitFunctionBody]; the value-initialised pair [{}] is [(0, 0)]. *)
Definition FindExplicitFunctionBody (haystack function : bytes) : nat * nat :=
  match find (format_function function) haystack with
  | None => (0, 0)
  | Some definition =>
      let st := scan (skipn definition haystack)
                     {| begin := definition; end_ := definition;
                        foundBegin := false; depth := 0 |} in
      if end_ st =? length haystack then (0, 0)
      else (begin st, end_ st)
  end.

(** The body of the [switch] of [Apply] for one descriptor: [None] when the
    body executes [return desc.token], otherwise the file after the
    [replace]. *)
Definition apply_desc (desc : Descriptor) (file : bytes) : option bytes :=
  match type desc with
  | ReplaceOne =>
      match find (token desc) file with
      | None => None
      | Some pos => Some (replace file pos (length (token desc)) (replacement desc))
      end
  | ExplicitFunction =>
      let '(b, e) := FindExplicitFunctionBody file (token desc) in
      if (b =? 0) || (e =? 0) then None
      else Some (replace file b (e - b) (replacement desc))
  end.

(** [Apply]: the returned [string_view] paired with the final contents of
    [file].  The empty view [[]] is returned after the last descriptor. *)
Fixpoint Apply (file : bytes) (descs : list Descriptor) : bytes * bytes :=
  match descs with
  | [] => ([], file)
  | desc :: descs' =>
      match apply_desc desc file with
      | None => (token desc, file)
      | Some file' => Apply file' descs'
      end
  end.

End patcher.

(** ** PatchesDeviceInfo.hpp and PatchesWebsiteLibMin.hpp *)

Module Tables.
Import patcher.

Definition deviceInfo_handler_token : bytes :=
  "if(arg.pid===" ++ dq ++ "GET_DEVICE_INFO" ++ dq ++ "){event.returnValue=deviceInfo}".

Definition deviceInfo_handler_replacement : bytes :=
  "if(arg.pid===" ++ dq ++ "GET_DEVICE_INFO" ++ dq ++ "){request({url:" ++ dq ++ "http://localhost:2020/device-info" ++ dq ++ ",method:" ++ dq ++ "POST" ++ dq ++ ",headers:{" ++ dq ++ "Content-Type" ++ dq ++ ":" ++ dq ++ "application/json" ++ dq ++ "},body:deviceInfo,json:true},(err,resp,body)=>{event.returnValue=body})}".

Definition postRunningProcessData_replacement : bytes :=
  "{" ++ nl ++
  "request({" ++ nl ++
  "  url: " ++ dq ++ "http://localhost:2020/running-executables" ++ dq ++ "," ++ nl ++
  "  method: " ++ dq ++ "POST" ++ dq ++ "," ++ nl ++
  "  headers: {" ++ nl ++
  "    " ++ dq ++ "Content-Type" ++ dq ++ ": " ++ dq ++ "application/json" ++ dq ++ "," ++ nl ++
  "    " ++ dq ++ "Authorization" ++ dq ++ ": " ++ dq ++ "Bearer " ++ dq ++ " + global.accountInfo.internalToken," ++ nl ++
  "    " ++ dq ++ "RealUrl" ++ dq ++ ": main.skinInfo.host + " ++ dq ++ "/frontend/running-executables" ++ dq ++ "," ++ nl ++
  "  }," ++ nl ++
  "  cache: false," ++ nl ++
  "  timeout: 3e4," ++ nl ++
  "  body: _deviceInfo," ++ nl ++
  "  json: true," ++ nl ++
  "}, (error, response, body) => {" ++ nl ++
  "  if (error) {}" ++ nl ++
  "  global.isSentRunningExeList = true;" ++ nl ++
  "})" ++ nl ++
  "}".

Definition getRestrictedApps_replacement : bytes :=
  "{" ++ nl ++
  "const headers = {" ++ nl ++
  "  " ++ dq ++ "Accept" ++ dq ++ ": " ++ dq ++ "application/json, text/plain, */*" ++ dq ++ "," ++ nl ++
  "  " ++ dq ++ "Content-Type" ++ dq ++ ": " ++ dq ++ "application/json" ++ dq ++ "," ++ nl ++
  "  " ++ dq ++ "RealUrl" ++ dq ++ ": main.skinInfo.host + " ++ dq ++ "/frontend/restricted-app" ++ dq ++ nl ++
  "};" ++ nl ++
  "if (typeof global.accountInfo != " ++ dq ++ "undefined" ++ dq ++ " && global.accountInfo !== null && typeof global.accountInfo.internalToken !== " ++ dq ++ "undefined" ++ dq ++ ") {" ++ nl ++
  "  let token = global.accountInfo.internalToken;" ++ nl ++
  "  headers[" ++ dq ++ "Authorization" ++ dq ++ "] = " ++ dq ++ "Bearer " ++ dq ++ " + token" ++ nl ++
  "}" ++ nl ++
  nl ++
  "return new Promise(resolve => {" ++ nl ++
  "  request({" ++ nl ++
  "    url: " ++ dq ++ "http://localhost:2020/restricted-app" ++ dq ++ "," ++ nl ++
  "    method: " ++ dq ++ "POST" ++ dq ++ "," ++ nl ++
  "    headers: headers," ++ nl ++
  "    cache: false," ++ nl ++
  "    timeout: 3e4," ++ nl ++
  "    body: _deviceInfo," ++ nl ++
  "    json: true" ++ nl ++
  "  }, (error, response, body) => {" ++ nl ++
  "    if (!error && response.statusCode == 200) {" ++ nl ++
  "      resolve(body)" ++ nl ++
  "    } else {" ++ nl ++
  "      resolve([])" ++ nl ++
  "    }" ++ nl ++
  "  })" ++ nl ++
  "})" ++ nl ++
  "}".

Definition socket_connect_token : bytes :=
  "socket=io.connect(c,b);".

Definition socket_connect_replacement : bytes :=
  "b.query+=`&realurl=${c}`;socket=io.connect(" ++ dq ++ "http://localhost:2020" ++ dq ++ ",b);".

(** [kPatchesDeviceInfo] *)
Definition kPatchesDeviceInfo : list Descriptor :=
  [ mkDescriptor ReplaceOne deviceInfo_handler_token deviceInfo_handler_replacement;
    mkDescriptor ExplicitFunction "postRunningProcessData" postRunningProcessData_replacement;
    mkDescriptor ExplicitFunction "getRestrictedApps" getRestrictedApps_replacement ].

(** [kPatchesWebsiteLibMin] *)
Definition kPatchesWebsiteLibMin : list Descriptor :=
  [ mkDescriptor ReplaceOne socket_connect_token socket_connect_replacement ].

End Tables.

(** ** Main.cpp *)

Module Driver.
Import StdString patcher Tables.

(** Equality of two strings, used to compare file names. *)
Fixpoint bytes_eqb (a b : bytes) : bool :=
  match a, b with
  | [], [] => true
  | x :: a', y :: b' => Byte.eqb x y && bytes_eqb a' b'
  | _, _ => false
  end.

(** What the program observes of the file system: the regular files with
    their contents, the directories, and the names that cannot be opened
    for writing. *)
Record FileSystem := mkFS {
  fs_files : list (bytes * bytes);
  fs_dirs : list bytes;
  fs_unwritable : list bytes
}.

Fixpoint lookup (name : bytes) (files : list (bytes * bytes)) : option bytes :=
  match files with
  | [] => None
  | (n, c) :: files' => if bytes_eqb name n then Some c else lookup name files'
  end.

Fixpoint store (name contents : bytes) (files : list (bytes * bytes))
  : list (bytes * bytes) :=
  match files with
  | [] => [(name, contents)]
  | (n, c) :: files' =>
      if bytes_eqb name n then (n, contents) :: files'
      else (n, c) :: store name contents files'
  end.

(** The contents of the regular file called [name], if there is one. *)
Definition file_contents (fs : FileSystem) (name : bytes) : option bytes :=
  lookup name (fs_files fs).

(** [std::filesystem::exists] *)
Definition exists_ (fs : FileSystem) (name : bytes) : bool :=
  existsb (bytes_eqb name) (fs_dirs fs) ||
  match file_contents fs name with Some _ => true | None => false end.

(** [std::ifstream stream {p, std::ios::binary}] followed by reading the
    stream to its end: [None] when the stream cannot be opened. *)
Definition ifstream_read_all (fs : FileSystem) (p : bytes) : option bytes :=
  file_contents fs (c_str p).

(** [std::ofstream stream {p, out | binary}] followed by
    [stream.write(contents.data(), contents.size())]: the state of the
    stream after the write, and the file system.  Opening truncates the
    file; a stream that could not be opened writes nothing. *)
Definition ofstream_write (fs : FileSystem) (p contents : bytes)
  : bool * FileSystem :=
  if existsb (bytes_eqb (c_str p)) (fs_unwritable fs) then (false, fs)
  else (true, {| fs_files := store (c_str p) contents (fs_files fs);
                 fs_dirs := fs_dirs fs;
                 fs_unwritable := fs_unwritable fs |}).

(** [ReadFileUTF8]: the bytes of the file go into a vector, a NUL is
    appended, and the returned [std::string] is built from the pointer to
    the first byte of the vector. *)
Definition ReadFileUTF8 (fs : FileSystem) (path : bytes) : bytes :=
  match ifstream_read_all fs path with
  | None => []
  | Some binary => c_str (binary ++ [x00])
  end.

(** [WriteFileUTF8] *)
Definition WriteFileUTF8 (fs : FileSystem) (path contents : bytes)
  : bool * FileSystem :=
  ofstream_write fs path contents.

(** The three diagnostics that [main] prints inside its loop, and the one
    before it. *)
Definition msg_not_found : bytes :=
  "Unpacked game directory not found" ++ nl.

Definition msg_unreadable (file : bytes) : bytes :=
  "Unable to read contents of file:(" ++ c_str file ++ ")" ++ nl.

Definition msg_patch_miss (file tok : bytes) : bytes :=
  "Unable to apply all patches to file:(" ++ c_str file ++ "), token:(" ++
  c_str tok ++ ")" ++ nl.

Definition msg_patched (file : bytes) : bytes :=
  "Patched file:(" ++ c_str file ++ ")" ++ nl.

(** The result of a run: exit status, file system, standard output. *)
Definition Run : Type := Z * FileSystem * bytes.

(** The range-based [for] of [main] over the entries of [patches], in the
    order in which the iteration visits them; [out] is what has been
    printed so far. *)
Fixpoint main_loop (entries : list (bytes * list Descriptor))
    (fs : FileSystem) (out : bytes) : Run :=
  match entries with
  | [] => (0%Z, fs, out)
  | (file, descs) :: entries' =>
      let contents := ReadFileUTF8 fs file in
      if empty contents then ((-1)%Z, fs, out ++ msg_unreadable file)
      else
        let '(tok, contents') := Apply contents descs in
        if negb (empty tok) then ((-1)%Z, fs, out ++ msg_patch_miss file tok)
        else
          let '(_, fs') := WriteFileUTF8 fs file contents' in
          main_loop entries' fs' (out ++ msg_patched file)
  end.

(** [operator/] of [std::filesystem::path] with a relative right operand,
    in the generic format: a separator is added unless the left operand is
    empty or already ends in one. *)
Definition separator_after (p : bytes) : bytes :=
  match rev p with
  | [] => []
  | c :: _ => if Byte.eqb c "/" then [] else "/"
  end.

Definition path_append (p q : bytes) : bytes :=
  p ++ separator_after p ++ q.

(** The two entries that [main] puts into [patches]. *)
Definition patches (unpacked : bytes) : list (bytes * list Descriptor) :=
  [ (path_append (path_append unpacked "controller") "deviceInfo.js",
     kPatchesDeviceInfo);
    (path_append (path_append (path_append unpacked "involved") "website-lib")
       "website-lib.min.js",
     kPatchesWebsiteLibMin) ].

(** [main], for [argv[1] = unpacked].  An [unordered_map] is iterated in an
    unspecified order: [reversed] tells whether the second entry is visited
    first. *)
Definition main (fs : FileSystem) (unpacked : bytes) (reversed : bool) : Run :=
  if negb (exists_ fs unpacked) then ((-1)%Z, fs, msg_not_found)
  else main_loop (if reversed then rev (patches unpacked) else patches unpacked)
                 fs [].

End Driver.

Import StdString patcher Tables Driver.

(** * The vocabulary of the properties *)

(** ** The engine *)

(** What holds of the loop variables before and after every iteration:
    [begin] never passes [end], and once the opening brace has been seen
    [begin] is the index of a [{] strictly below [end]. *)
Definition scan_inv (haystack : bytes) (st : ScanState) : Prop :=
  begin st <= end_ st /\
  end_ st <= length haystack /\
  (foundBegin st = true ->
   begin st < end_ st /\ nth_error haystack (begin st) = Some x7b).

(** The region of a function body in the words of the design document:
    [first_open_brace] is the offset of the first [{], [matching_brace] the
    offset, after the opening brace, of the [}] that brings a depth counted
    from the opening brace back to zero, and [documented_body] the pair
    [(begin, end_inclusive)]. *)
Fixpoint first_open_brace (rest : bytes) : option nat :=
  match rest with
  | [] => None
  | c :: rest' =>
      if Byte.eqb c "{" then Some 0
      else option_map S (first_open_brace rest')
  end.

Fixpoint matching_brace (rest : bytes) (d : nat) : option nat :=
  match rest with
  | [] => None
  | c :: rest' =>
      if Byte.eqb c "{" then option_map S (matching_brace rest' (S d))
      else if Byte.eqb c "}" then
        match d with
        | 0 => None
        | 1 => Some 0
        | S d' => option_map S (matching_brace rest' d')
        end
      else option_map S (matching_brace rest' d)
  end.

Definition documented_body (haystack function : bytes) : option (nat * nat) :=
  match find (format_function function) haystack with
  | None => None
  | Some definition =>
      match first_open_brace (skipn definition haystack) with
      | None => None
      | Some o =>
          match matching_brace (skipn (S (definition + o)) haystack) 1 with
          | None => None
          | Some k => Some (definition + o, S (definition + o) + k)
          end
      end
  end.

(** No [}] stands between the anchor and the first [{] after it. *)
Definition no_stray_close (haystack function : bytes) : bool :=
  match find (format_function function) haystack with
  | None => true
  | Some definition =>
      match first_open_brace (skipn definition haystack) with
      | None => true
      | Some o =>
          forallb (fun c => negb (Byte.eqb c "}"))
                  (firstn o (skipn definition haystack))
      end
  end.

(** What it means that [file'] is [file] with one region given way to the
    replacement of [desc]: the bytes before and after the region are the
    same.  For [ReplaceOne] the region holds the token, for
    [ExplicitFunction] it begins with an opening brace. *)
Inductive substitution (desc : Descriptor) (file file' : bytes) : Prop :=
| substitution_intro (pre old post : bytes) :
    file = pre ++ old ++ post ->
    file' = pre ++ replacement desc ++ post ->
    (type desc = ReplaceOne -> old = token desc) ->
    (type desc = ExplicitFunction -> exists body, old = x7b :: body) ->
    substitution desc file file'.

(** The descriptors of a list applied one after the other, each to the
    result of the one before; [None] as soon as one of them fails. *)
Fixpoint apply_all (descs : list Descriptor) (file : bytes) : option bytes :=
  match descs with
  | [] => Some file
  | desc :: descs' =>
      match apply_desc desc file with
      | None => None
      | Some file' => apply_all descs' file'
      end
  end.

(** One substitution for each descriptor of the list, in order. *)
Inductive substitutions : list Descriptor -> bytes -> bytes -> Prop :=
| substitutions_nil (file : bytes) : substitutions [] file file
| substitutions_cons (desc : Descriptor) (descs : list Descriptor)
    (file file1 file' : bytes) :
    substitution desc file file1 ->
    substitutions descs file1 file' ->
    substitutions (desc :: descs) file file'.

(** The positions at which [tok] occurs in [file], in increasing order. *)
Definition occurrences (tok file : bytes) : list nat :=
  filter (fun q => starts_with tok (skipn q file)) (seq 0 (S (length file))).

(** No occurrence of [tok] in [file] begins below position [k]. *)
Definition no_match_before (tok file : bytes) (k : nat) : bool :=
  forallb (fun q => negb (starts_with tok (skipn q file))) (seq 0 k).

(** The first-match property in the words of the design document: the
    occurrence at the lowest position [p1] is replaced, and a second
    application of the same descriptor replaces the occurrence at the next
    position [p2] (moved by the difference of the lengths), or fails when
    there was no further occurrence. *)
Definition first_match_as_documented (file tok rep : bytes) : Prop :=
  let desc := mkDescriptor ReplaceOne tok rep in
  match occurrences tok file with
  | [] => True
  | p1 :: later =>
      let file1 := replace file p1 (length tok) rep in
      apply_desc desc file = Some file1 /\
      match later with
      | [] => apply_desc desc file1 = None
      | p2 :: _ =>
          apply_desc desc file1 =
            Some (replace file1 (p2 + length rep - length tok) (length tok) rep)
      end
  end.

(** ** The driver *)

(** The names of the files that a run over [entries] opens. *)
Definition names (entries : list (bytes * list Descriptor)) : list bytes :=
  map (fun e => c_str (fst e)) entries.

(** The file of an entry can be read and the engine returns the empty view
    for it. *)
Definition patchable (fs : FileSystem) (e : bytes * list Descriptor) : Prop :=
  ReadFileUTF8 fs (fst e) <> [] /\
  fst (Apply (ReadFileUTF8 fs (fst e)) (snd e)) = [].

(** ** Counting braces *)

(** What a byte adds to the brace counter of the scan, and the sum over a
    run of bytes. *)
Definition is_open_brace (c : byte) : bool := Byte.eqb c "{".

Definition brace_delta (c : byte) : Z :=
  if Byte.eqb c "{" then 1%Z
  else if Byte.eqb c "}" then (-1)%Z
  else 0%Z.

Definition balance (l : bytes) : Z :=
  fold_right (fun c z => (brace_delta c + z)%Z) 0%Z l.

(** A replacement that is one brace-matched block: it begins with an
    opening brace whose matching closing brace is its last byte. *)
Definition closes_at_end (rep : bytes) : bool :=
  match rep with
  | [] => false
  | c :: body =>
      Byte.eqb c "{" &&
      match matching_brace body 1 with
      | Some k => S k =? length body
      | None => false
      end
  end.

(** Whether the loop of the scan, started in the state [st] on the bytes
    [rest], leaves after [m] iterations: the opening brace has been seen
    and the counter is zero. *)
Definition stops_after (st : ScanState) (rest : bytes) (m : nat) : bool :=
  (foundBegin st || existsb is_open_brace (firstn m rest)) &&
  ((depth st + balance (firstn m rest)) mod size_t_modulus =? 0)%Z.

(** The file of an entry can be read and every descriptor of the entry
    applies to it. *)
Definition fully_patchable (fs : FileSystem) (e : bytes * list Descriptor) : Prop :=
  ReadFileUTF8 fs (fst e) <> [] /\
  apply_all (snd e) (ReadFileUTF8 fs (fst e)) <> None.


(** * Properties *)

(** ** Lists of bytes *)

Section ListFacts.

Lemma skipn_cons_inv (l : bytes) : forall n c r,
  skipn n l = c :: r ->
  nth_error l n = Some c /\ skipn (S n) l = r /\ n < length l.
Proof.
  induction l as [|a l IH]; intros n c r H.
  - destruct n; discriminate.
  - destruct n as [|n]; simpl in H.
    + injection H as -> ->. simpl. repeat split. lia.
    + destruct (IH _ _ _ H) as (H1 & H2 & H3). simpl. repeat split; auto. lia.
Qed.

Lemma skipn_nil_inv (l : bytes) : forall n, skipn n l = [] -> length l <= n.
Proof.
  induction l as [|a l IH]; intros n H; simpl.
  - lia.
  - destruct n as [|n]; [discriminate|]. simpl in H. apply IH in H. lia.
Qed.

Lemma skipn_plus (l : bytes) : forall n m, skipn n (skipn m l) = skipn (m + n) l.
Proof.
  induction l as [|a l IH]; intros n m.
  - now rewrite !skipn_nil.
  - destruct m as [|m]; simpl; [reflexivity | apply IH].
Qed.

Lemma firstn_past (l1 l2 : bytes) n :
  firstn (length l1 + n) (l1 ++ l2) = l1 ++ firstn n l2.
Proof. induction l1 as [|a l1 IH]; simpl; [reflexivity | now rewrite IH]. Qed.

Lemma skipn_past (l1 l2 : bytes) n :
  skipn (length l1 + n) (l1 ++ l2) = skipn n l2.
Proof. induction l1 as [|a l1 IH]; simpl; [reflexivity | exact IH]. Qed.

Lemma firstn_exact (l1 l2 : bytes) : firstn (length l1) (l1 ++ l2) = l1.
Proof.
  rewrite <- (Nat.add_0_r (length l1)), firstn_past. simpl. apply app_nil_r.
Qed.

Lemma skipn_exact (l1 l2 : bytes) : skipn (length l1) (l1 ++ l2) = l2.
Proof. rewrite <- (Nat.add_0_r (length l1)), skipn_past. reflexivity. Qed.

Lemma firstn_length_le (l : bytes) : forall n, n <= length l -> length (firstn n l) = n.
Proof.
  induction l as [|a l IH]; intros [|n] H; simpl in *; try lia.
  rewrite IH; lia.
Qed.

Lemma split_three (l : bytes) b e :
  b <= e -> l = firstn b l ++ firstn (e - b) (skipn b l) ++ skipn e l.
Proof.
  intros H. rewrite <- (firstn_skipn b l) at 1. f_equal.
  rewrite <- (firstn_skipn (e - b) (skipn b l)) at 1. f_equal.
  rewrite skipn_plus. f_equal. lia.
Qed.

End ListFacts.

(** ** [std::string::find] and [std::string::replace] *)

Section FindFacts.

Lemma byte_eqb_refl (b : byte) : Byte.eqb b b = true.
Proof. now apply Byte.byte_dec_lb. Qed.

Lemma starts_with_app (needle rest : bytes) :
  starts_with needle (needle ++ rest) = true.
Proof.
  induction needle as [|a n IH]; simpl; [reflexivity|].
  now rewrite byte_eqb_refl, IH.
Qed.

Lemma starts_with_inv (needle : bytes) : forall hay,
  starts_with needle hay = true -> hay = needle ++ skipn (length needle) hay.
Proof.
  induction needle as [|a n IH]; intros hay H; simpl in *; [reflexivity|].
  destruct hay as [|b hay]; [discriminate|].
  apply andb_prop in H as [H1 H2].
  apply Byte.byte_dec_bl in H1 as ->. simpl. f_equal. now apply IH.
Qed.

(** [find] returns a position at which the needle occurs, and no lower
    position has an occurrence. *)
Lemma find_Some (needle hay : bytes) : forall p,
  find needle hay = Some p ->
  starts_with needle (skipn p hay) = true /\
  p <= length hay /\
  (forall q, q < p -> starts_with needle (skipn q hay) = false).
Proof.
  induction hay as [|a hay IH]; intros p H.
  - simpl in H. destruct (starts_with needle []) eqn:E; [|discriminate].
    injection H as <-. simpl. repeat split; auto; intros; lia.
  - simpl in H. destruct (starts_with needle (a :: hay)) eqn:E.
    + injection H as <-. simpl. repeat split; auto; intros; lia.
    + destruct (find needle hay) as [p'|] eqn:F; [|discriminate].
      injection H as <-. destruct (IH _ eq_refl) as (H1 & H2 & H3).
      simpl. repeat split; auto; [lia|].
      intros [|q] Hq; simpl; [exact E | apply H3; lia].
Qed.

Lemma find_None (needle hay : bytes) :
  find needle hay = None ->
  forall q, starts_with needle (skipn q hay) = false.
Proof.
  induction hay as [|a hay IH]; intros H q.
  - rewrite skipn_nil. simpl in H.
    destruct (starts_with needle []); [discriminate | reflexivity].
  - simpl in H. destruct (starts_with needle (a :: hay)) eqn:E; [discriminate|].
    destruct (find needle hay) eqn:F; [discriminate|].
    destruct q as [|q]; simpl; [exact E | now apply IH].
Qed.

Lemma find_le (needle hay : bytes) p :
  find needle hay = Some p -> p + length needle <= length hay.
Proof.
  intros H. destruct (find_Some _ _ _ H) as (H1 & H2 & _).
  apply starts_with_inv in H1.
  apply (f_equal (@length byte)) in H1.
  rewrite length_app in H1.
  assert (length (skipn p hay) = length hay - p) by apply length_skipn.
  lia.
Qed.

Lemma find_occurrence (needle hay : bytes) p :
  find needle hay = Some p ->
  hay = firstn p hay ++ needle ++ skipn (p + length needle) hay.
Proof.
  intros H. destruct (find_Some _ _ _ H) as (H1 & _ & _).
  apply starts_with_inv in H1. rewrite skipn_plus in H1.
  rewrite <- H1. symmetry. apply firstn_skipn.
Qed.

(** When no occurrence begins below [k], the search may as well start
    at [k]. *)
Lemma find_skip (needle : bytes) : forall k hay,
  k <= length hay ->
  (forall q, q < k -> starts_with needle (skipn q hay) = false) ->
  find needle hay = option_map (Nat.add k) (find needle (skipn k hay)).
Proof.
  induction k as [|k IH]; intros hay Hk Hq.
  - simpl. now destruct (find needle hay).
  - destruct hay as [|a hay]; [simpl in Hk; lia|].
    simpl. specialize (Hq 0 (Nat.lt_0_succ _)) as E. simpl in E. rewrite E.
    rewrite (IH hay); [|simpl in Hk; lia|].
    + now destruct (find needle (skipn k hay)).
    + intros q Hlt. apply (Hq (S q)). lia.
Qed.

Lemma find_empty (hay : bytes) : find [] hay = Some 0.
Proof. destruct hay; reflexivity. Qed.

(** [needle] is found if and only if it is a substring. *)
Lemma find_None_iff (needle hay : bytes) :
  find needle hay = None <->
  ~ exists pre post, hay = pre ++ needle ++ post.
Proof.
  split.
  - intros H (pre & post & ->).
    pose proof (find_None _ _ H (length pre)) as E.
    rewrite skipn_exact, starts_with_app in E. discriminate.
  - intros H. destruct (find needle hay) as [p|] eqn:F; [|reflexivity].
    exfalso. apply H. eexists _, _. exact (find_occurrence _ _ _ F).
Qed.

Lemma filter_seq_none (P : nat -> bool) : forall k a,
  (forall q, P q = false) -> filter P (seq a k) = [].
Proof.
  induction k as [|k IH]; intros a H; simpl; [reflexivity|].
  rewrite H. now apply IH.
Qed.

Lemma filter_seq_least (P : nat -> bool) (p : nat) : forall k a,
  a <= p < a + k ->
  P p = true ->
  (forall q, q < p -> P q = false) ->
  hd_error (filter P (seq a k)) = Some p.
Proof.
  induction k as [|k IH]; intros a Hp Ht Hf; simpl; [lia|].
  destruct (Nat.eq_dec a p) as [->|Hne].
  - now rewrite Ht.
  - rewrite (Hf a) by lia. apply IH; auto. lia.
Qed.

(** [find] returns the first of the occurrences. *)
Lemma find_first_occurrence (tok file : bytes) :
  find tok file = hd_error (occurrences tok file).
Proof.
  unfold occurrences. destruct (find tok file) as [p|] eqn:F.
  - destruct (find_Some _ _ _ F) as (H1 & H2 & H3).
    symmetry. apply filter_seq_least; auto. lia.
  - rewrite filter_seq_none; [reflexivity|]. now apply find_None.
Qed.

End FindFacts.

(** ** The scan of [FindExplicitFunctionBody] *)

Section ScanFacts.

Variable haystack : bytes.

Lemma scan_body_end (c : byte) (st : ScanState) :
  end_ (scan_body c st) = S (end_ st).
Proof.
  unfold scan_body. destruct (Byte.eqb c "{"); [reflexivity|].
  destruct (Byte.eqb c "}"); reflexivity.
Qed.

Lemma scan_body_inv (c : byte) (st : ScanState) :
  scan_inv haystack st ->
  nth_error haystack (end_ st) = Some c ->
  end_ st < length haystack ->
  scan_inv haystack (scan_body c st).
Proof.
  intros (H1 & H2 & H3) Hc Hlt. unfold scan_inv, scan_body.
  destruct (Byte.eqb c "{") eqn:Eo; simpl.
  - apply Byte.byte_dec_bl in Eo. subst c.
    destruct (foundBegin st) eqn:Ef.
    + destruct (H3 eq_refl). repeat split; auto; lia.
    + repeat split; auto; lia.
  - destruct (Byte.eqb c "}"); simpl; repeat split; try lia;
      destruct (H3 H); auto; lia.
Qed.

(** The loop keeps the invariant, and when it stops before the end of the
    haystack it has seen the opening brace and the counter is zero. *)
Lemma scan_spec : forall rest st,
  skipn (end_ st) haystack = rest ->
  scan_inv haystack st ->
  scan_inv haystack (scan rest st) /\
  (end_ (scan rest st) <> length haystack ->
   foundBegin (scan rest st) = true /\ depth (scan rest st) = 0%Z).
Proof.
  induction rest as [|c rest IH]; intros st Hrest Hinv.
  - simpl. split; [exact Hinv|]. intros Hne.
    apply skipn_nil_inv in Hrest. destruct Hinv as (_ & H & _). lia.
  - simpl. destruct (foundBegin st && (depth st =? 0)%Z) eqn:Estop.
    + split; [exact Hinv|]. intros _.
      apply andb_prop in Estop as [Hf Hd]. apply Z.eqb_eq in Hd. auto.
    + destruct (skipn_cons_inv _ _ _ _ Hrest) as (Hc & Hnext & Hlt).
      apply IH.
      * now rewrite scan_body_end.
      * now apply scan_body_inv.
Qed.

End ScanFacts.

(** A region that [FindExplicitFunctionBody] reports lies inside the
    haystack, is not empty and begins with an opening brace. *)
Lemma FindExplicitFunctionBody_bounds (haystack function : bytes) b e :
  FindExplicitFunctionBody haystack function = (b, e) ->
  (b = 0 /\ e = 0) \/
  (b < e /\ e < length haystack /\ nth_error haystack b = Some x7b).
Proof.
  unfold FindExplicitFunctionBody.
  destruct (find (format_function function) haystack) as [def|] eqn:F.
  2:{ intros H. injection H as <- <-. now left. }
  destruct (find_Some _ _ _ F) as (_ & Hle & _).
  match goal with |- context [scan ?r ?s] =>
    destruct (scan_spec haystack r s eq_refl) as [(H1 & H2 & H3) Hstop];
    [unfold scan_inv; simpl; repeat split; auto; discriminate|];
    set (st := scan r s) in *
  end.
  simpl. destruct (end_ st =? length haystack) eqn:E.
  - intros H. injection H as <- <-. now left.
  - apply Nat.eqb_neq in E. intros H. injection H as <- <-. right.
    destruct (Hstop E) as [Hf _]. destruct (H3 Hf). repeat split; auto. lia.
Qed.

(** ** The scan and the documented region *)

Section ScanAgreement.

Lemma size_t_modulus_value : size_t_modulus = 18446744073709551616%Z.
Proof. reflexivity. Qed.

Lemma size_t_incr_nat (d : nat) :
  (Z.of_nat (S d) < size_t_modulus)%Z ->
  size_t_incr (Z.of_nat d) = Z.of_nat (S d).
Proof.
  intros H. unfold size_t_incr. rewrite Z.mod_small; lia.
Qed.

Lemma size_t_decr_nat (d : nat) :
  (Z.of_nat (S d) < size_t_modulus)%Z ->
  size_t_decr (Z.of_nat (S d)) = Z.of_nat d.
Proof.
  intros H. unfold size_t_decr. rewrite Z.mod_small; lia.
Qed.

(** Once the loop condition fails the loop does nothing more. *)
Lemma scan_stopped (rest : bytes) (b e : nat) :
  scan rest (mkScan b e true 0) = mkScan b e true 0.
Proof. destruct rest; reflexivity. Qed.

(** Before the opening brace, with no [}] on the way. *)
Lemma scan_to_open_brace : forall rest o b0 e,
  first_open_brace rest = Some o ->
  forallb (fun c => negb (Byte.eqb c "}")) (firstn o rest) = true ->
  scan rest (mkScan b0 e false 0)
  = scan (skipn (S o) rest) (mkScan (e + o) (S (e + o)) true 1).
Proof.
  induction rest as [|c rest IH]; intros o b0 e Ho Hclose; [discriminate|].
  simpl in Ho. cbn [scan foundBegin andb]. unfold scan_body.
  destruct (Byte.eqb c "{") eqn:Eo.
  - injection Ho as <-. cbn [foundBegin begin end_ depth skipn].
    rewrite Nat.add_0_r. reflexivity.
  - destruct (first_open_brace rest) as [o'|] eqn:F; [|discriminate].
    injection Ho as <-. simpl in Hclose.
    apply andb_prop in Hclose as [Hc Hclose].
    apply negb_true_iff in Hc. rewrite Hc.
    cbn [foundBegin begin end_ depth].
    rewrite (IH o' b0 (S e) eq_refl Hclose).
    cbn [skipn]. now rewrite <- !Nat.add_succ_comm.
Qed.

(** Without an opening brace the loop runs to the end of the haystack. *)
Lemma scan_no_open_brace : forall rest b0 e d,
  first_open_brace rest = None ->
  end_ (scan rest (mkScan b0 e false d)) = e + length rest.
Proof.
  induction rest as [|c rest IH]; intros b0 e d Ho; simpl.
  - lia.
  - simpl in Ho. unfold scan_body.
    destruct (Byte.eqb c "{") eqn:Eo; [discriminate|].
    destruct (first_open_brace rest) eqn:F; [discriminate|].
    destruct (Byte.eqb c "}"); cbn [foundBegin begin end_ depth];
      rewrite IH by reflexivity; lia.
Qed.

(** After the opening brace, at depth [d]. *)
Lemma scan_to_matching_brace : forall rest d b e,
  1 <= d ->
  (Z.of_nat (d + length rest) < size_t_modulus)%Z ->
  match matching_brace rest d with
  | Some k => scan rest (mkScan b e true (Z.of_nat d)) = mkScan b (S (e + k)) true 0
  | None => end_ (scan rest (mkScan b e true (Z.of_nat d))) = e + length rest
  end.
Proof.
  induction rest as [|c rest IH]; intros d b e Hd Hlen.
  - simpl. lia.
  - cbn [scan matching_brace foundBegin depth andb].
    replace (Z.of_nat d =? 0)%Z with false by (symmetry; apply Z.eqb_neq; lia).
    unfold scan_body. cbn [foundBegin begin end_ depth]. simpl length in Hlen.
    destruct (Byte.eqb c "{") eqn:Eo.
    + rewrite size_t_incr_nat by lia.
      specialize (IH (S d) b (S e)).
      destruct (matching_brace rest (S d)) as [k|]; cbn [option_map].
      * rewrite IH by lia. f_equal. lia.
      * rewrite IH by lia. cbn [length]. lia.
    + destruct (Byte.eqb c "}") eqn:Ec.
      * destruct d as [|[|d]]; [lia| |].
        -- change (Z.of_nat 1) with 1%Z. cbn [size_t_decr].
           change (size_t_decr 1) with 0%Z.
           rewrite scan_stopped. f_equal. lia.
        -- rewrite size_t_decr_nat by lia.
           specialize (IH (S d) b (S e)).
           destruct (matching_brace rest (S d)) as [k|]; cbn [option_map].
           ++ rewrite IH by lia. f_equal. lia.
           ++ rewrite IH by lia. cbn [length]. lia.
      * specialize (IH d b (S e)).
        destruct (matching_brace rest d) as [k|]; cbn [option_map].
        -- rewrite IH by lia. f_equal. lia.
        -- rewrite IH by lia. cbn [length]. lia.
Qed.

End ScanAgreement.

(** On a haystack shorter than [2^64] bytes in which no [}] stands between
    the anchor and the first [{], [FindExplicitFunctionBody] reports the
    documented region, as [(begin, end_inclusive + 1)], unless the closing
    brace is the last byte of the haystack; it reports nothing when the
    documented scan fails. *)
Lemma FindExplicitFunctionBody_documented (haystack function : bytes) :
  (Z.of_nat (length haystack) < size_t_modulus)%Z ->
  no_stray_close haystack function = true ->
  FindExplicitFunctionBody haystack function =
  match documented_body haystack function with
  | Some (b, ei) => if S ei =? length haystack then (0, 0) else (b, S ei)
  | None => (0, 0)
  end.
Proof.
  intros Hlen Hclose.
  unfold FindExplicitFunctionBody, documented_body, no_stray_close in *.
  destruct (find (format_function function) haystack) as [def|] eqn:F;
    [|reflexivity].
  destruct (find_Some _ _ _ F) as (_ & Hle & _).
  assert (Hrest : length (skipn def haystack) = length haystack - def)
    by apply length_skipn.
  destruct (first_open_brace (skipn def haystack)) as [o|] eqn:O.
  - assert (Ho : o < length (skipn def haystack)).
    { clear - O. revert o O.
      induction (skipn def haystack) as [|c l IH]; intros o O; [discriminate|].
      simpl in *. destruct (Byte.eqb c "{"); [injection O as <-; lia|].
      destruct (first_open_brace l) as [o'|]; [|discriminate].
      injection O as <-. specialize (IH o' eq_refl). lia. }
    rewrite (scan_to_open_brace _ o def def O Hclose).
    rewrite skipn_plus.
    replace (def + S o) with (S (def + o)) by lia.
    assert (Htail : length (skipn (S (def + o)) haystack)
                    = length haystack - S (def + o)) by apply length_skipn.
    pose proof (scan_to_matching_brace (skipn (S (def + o)) haystack) 1
                  (def + o) (S (def + o)) (le_n 1)) as M.
    change (Z.of_nat 1) with 1%Z in M.
    destruct (matching_brace (skipn (S (def + o)) haystack) 1) as [k|].
    + rewrite M by lia. reflexivity.
    + cbv zeta. rewrite M by lia.
      rewrite Htail.
      replace (S (def + o) + (length haystack - S (def + o)))
        with (length haystack) by lia.
      now rewrite Nat.eqb_refl.
  - cbv zeta. rewrite scan_no_open_brace by exact O.
    rewrite Hrest. replace (def + (length haystack - def)) with (length haystack) by lia.
    now rewrite Nat.eqb_refl.
Qed.

(** The documented region begins after the anchor, hence not at index 0,
    and its closing brace comes after its opening brace. *)
Lemma documented_body_shape (haystack function : bytes) b ei :
  documented_body haystack function = Some (b, ei) -> 0 < b < ei.
Proof.
  unfold documented_body.
  destruct (find (format_function function) haystack) as [def|] eqn:F;
    [|discriminate].
  destruct (find_Some _ _ _ F) as (Hs & _ & _).
  apply starts_with_inv in Hs.
  destruct (skipn def haystack) as [|c l]; [discriminate|].
  injection Hs as -> _. simpl.
  destruct (first_open_brace l) as [o|]; [|discriminate]. simpl.
  destruct (matching_brace _ 1) as [k|]; [|discriminate].
  intros H. injection H as <- <-. lia.
Qed.

(** What an [ExplicitFunction] descriptor does under the same two
    conditions: the documented region, both braces included, gives way to
    the replacement, unless the closing brace ends the buffer. *)
Lemma apply_desc_documented (file tok rep : bytes) :
  (Z.of_nat (length file) < size_t_modulus)%Z ->
  no_stray_close file tok = true ->
  apply_desc (mkDescriptor ExplicitFunction tok rep) file =
  match documented_body file tok with
  | Some (b, ei) =>
      if S ei =? length file then None
      else Some (firstn b file ++ rep ++ skipn (S ei) file)
  | None => None
  end.
Proof.
  intros Hlen Hclose. unfold apply_desc. cbn [type token replacement].
  rewrite (FindExplicitFunctionBody_documented _ _ Hlen Hclose).
  destruct (documented_body file tok) as [[b ei]|] eqn:D; [|reflexivity].
  apply documented_body_shape in D.
  destruct (S ei =? length file); [reflexivity|].
  destruct b as [|b]; [lia|]. cbn [Nat.eqb orb].
  unfold replace. do 4 f_equal. lia.
Qed.

(** ** One descriptor *)

Lemma apply_desc_substitution (desc : Descriptor) (file file' : bytes) :
  apply_desc desc file = Some file' -> substitution desc file file'.
Proof.
  unfold apply_desc. destruct (type desc) eqn:T.
  - destruct (find (token desc) file) as [pos|] eqn:F; [|discriminate].
    intros H. injection H as <-.
    apply (substitution_intro _ _ _ (firstn pos file) (token desc)
             (skipn (pos + length (token desc)) file)).
    + now apply find_occurrence.
    + reflexivity.
    + reflexivity.
    + congruence.
  - destruct (FindExplicitFunctionBody file (token desc)) as [b e] eqn:F.
    destruct ((b =? 0) || (e =? 0)) eqn:Z; [discriminate|].
    intros H. injection H as <-.
    apply orb_false_elim in Z as [Zb Ze].
    apply Nat.eqb_neq in Zb, Ze.
    destruct (FindExplicitFunctionBody_bounds _ _ _ _ F)
      as [[-> _]|(Hbe & Hel & Hnth)]; [contradiction|].
    apply (substitution_intro _ _ _ (firstn b file)
             (firstn (e - b) (skipn b file)) (skipn e file)).
    + apply split_three. lia.
    + unfold replace. do 3 f_equal. lia.
    + congruence.
    + intros _. destruct (skipn b file) as [|c r] eqn:S.
      * apply skipn_nil_inv in S. lia.
      * destruct (skipn_cons_inv _ _ _ _ S) as (Hc & _ & _).
        rewrite Hnth in Hc. injection Hc as <-.
        destruct (e - b) as [|n] eqn:D; [lia|]. simpl. eauto.
Qed.

(** A [ReplaceOne] descriptor fails exactly when its token is not a
    substring of the file. *)
Lemma apply_desc_ReplaceOne_None (tok rep file : bytes) :
  apply_desc (mkDescriptor ReplaceOne tok rep) file = None <->
  ~ exists pre post, file = pre ++ tok ++ post.
Proof.
  rewrite <- find_None_iff. unfold apply_desc. cbn [type token replacement].
  destruct (find tok file); split; intros H; try discriminate; reflexivity.
Qed.

(** ** The loop of [Apply] *)

Lemma Apply_all (descs : list Descriptor) : forall file file',
  apply_all descs file = Some file' -> Apply file descs = ([], file').
Proof.
  induction descs as [|d descs IH]; intros file file' H; simpl in *.
  - now injection H as <-.
  - destruct (apply_desc d file); [now apply IH | discriminate].
Qed.

Lemma Apply_app (pre : list Descriptor) : forall rest file file',
  apply_all pre file = Some file' ->
  Apply file (pre ++ rest) = Apply file' rest.
Proof.
  induction pre as [|d pre IH]; intros rest file file' H; simpl in *.
  - now injection H as <-.
  - destruct (apply_desc d file); [now apply IH | discriminate].
Qed.

Lemma Apply_empty_view_all (descs : list Descriptor) : forall file file',
  Forall (fun d => token d <> []) descs ->
  Apply file descs = ([], file') ->
  apply_all descs file = Some file'.
Proof.
  induction descs as [|d descs IH]; intros file file' Htok H; simpl in *.
  - now injection H as <-.
  - inversion Htok as [|? ? Hd Hrest]; subst.
    destruct (apply_desc d file); [now apply IH|].
    injection H as H _. contradiction.
Qed.

(** When some descriptor fails, [Apply] returns the token of the first one
    that does. *)
Lemma Apply_failure_token (descs : list Descriptor) : forall file,
  apply_all descs file = None ->
  exists pre desc post file_i,
    descs = pre ++ desc :: post /\
    apply_all pre file = Some file_i /\
    apply_desc desc file_i = None /\
    Apply file descs = (token desc, file_i).
Proof.
  induction descs as [|d descs IH]; intros file H; simpl in H; [discriminate|].
  destruct (apply_desc d file) as [file1|] eqn:E.
  - destruct (IH _ H) as (pre & desc & post & file_i & -> & Hpre & Hfail & Hres).
    exists (d :: pre), desc, post, file_i. simpl. rewrite E. auto.
  - exists [], d, descs, file. simpl. rewrite E. auto.
Qed.

(** The tokens of the two tables are not empty, so a failure on one of the
    tables always comes back as a view that is not empty. *)
Lemma table_failure_is_reported (descs : list Descriptor) (file : bytes) :
  descs = kPatchesDeviceInfo \/ descs = kPatchesWebsiteLibMin ->
  apply_all descs file = None ->
  fst (Apply file descs) <> [].
Proof.
  intros Ht H.
  destruct (Apply_failure_token _ _ H) as (pre & d & post & file_i & Hd & _ & _ & ->).
  assert (Hin : In d descs) by (rewrite Hd; apply in_elt).
  simpl. destruct Ht as [-> | ->]; simpl in Hin;
    repeat (destruct Hin as [<-|Hin]; [discriminate|]); destruct Hin.
Qed.

Lemma no_match_before_spec (tok file : bytes) (k : nat) :
  no_match_before tok file k = true ->
  forall q, q < k -> starts_with tok (skipn q file) = false.
Proof.
  unfold no_match_before. rewrite forallb_forall. intros H q Hq.
  apply negb_true_iff, H, in_seq. lia.
Qed.

(** * The properties of the design document *)

(** C1.  Scenario 4 of the design document: on the buffer
    ["function g() { {{}} }"] the descriptor
    [ExplicitFunction{token:"g", replacement:"{}"}] should give
    ["function g() {}"].  The code fails with the token ["g"] and leaves
    the buffer as it was: the brace that closes the body is the last byte,
    the scan leaves its loop with [end == haystack.size()], and
    [FindExplicitFunctionBody] takes that for a scan that ran off the end.
    With one more byte after the brace the descriptor is applied. *)
Theorem explicit_function_body_at_end_of_buffer :
  documented_body "function g() { {{}} }" "g" = Some (13, 20) /\
  FindExplicitFunctionBody "function g() { {{}} }" "g" = (0, 0) /\
  Apply "function g() { {{}} }" [mkDescriptor ExplicitFunction "g" "{}"]
    = ("g", "function g() { {{}} }") /\
  Apply "function g() { {{}} } " [mkDescriptor ExplicitFunction "g" "{}"]
    = ([], "function g() {} ").
Proof. repeat split. Qed.

(** C2.  A closing brace between the anchor and the first opening brace
    does take part in the count.  On
    ["function g(a = '}') { return 1; } x"] the counter is decremented from
    0 to [2^64 - 1] at the [}] of the parameter list and comes back to 0 at
    the opening brace of the body, so the region that is replaced is that
    one byte, not the body.  With any other byte in the place of that [}]
    the whole body is replaced. *)
Theorem closing_brace_before_body_is_counted :
  documented_body "function g(a = '}') { return 1; } x" "g" = Some (20, 32) /\
  scan "function g(a = '}" (mkScan 0 0 false 0)
    = mkScan 0 17 false (2 ^ 64 - 1) /\
  scan "function g(a = '}') { return 1; } x" (mkScan 0 0 false 0)
    = mkScan 20 21 true 0 /\
  FindExplicitFunctionBody "function g(a = '}') { return 1; } x" "g" = (20, 21) /\
  Apply "function g(a = '}') { return 1; } x"
        [mkDescriptor ExplicitFunction "g" "{}"]
    = ([], "function g(a = '}') {} return 1; } x") /\
  Apply "function g(a = '|') { return 1; } x"
        [mkDescriptor ExplicitFunction "g" "{}"]
    = ([], "function g(a = '|') {} x").
Proof. repeat split. Qed.

(** C4.  When the descriptors before [desc] have all been applied, giving
    [file_i], and [desc] does not match [file_i], [Apply] returns the token
    of [desc] and the buffer is [file_i]: what the earlier descriptors did
    stays, and neither [desc] nor any descriptor after it changes a byte. *)
Theorem Apply_stops_at_first_failure
    (pre : list Descriptor) (desc : Descriptor) (post : list Descriptor)
    (file file_i : bytes) :
  apply_all pre file = Some file_i ->
  apply_desc desc file_i = None ->
  Apply file (pre ++ desc :: post) = (token desc, file_i).
Proof.
  intros Hpre Hfail. rewrite (Apply_app _ _ _ _ Hpre). simpl.
  now rewrite Hfail.
Qed.

Lemma Apply_stops_at_first_failure_witness :
  apply_all [mkDescriptor ReplaceOne "A" "A1"] "AB" = Some "A1B" /\
  apply_desc (mkDescriptor ReplaceOne "Z" "Z1") "A1B" = None /\
  Apply "AB" ([mkDescriptor ReplaceOne "A" "A1"] ++
              mkDescriptor ReplaceOne "Z" "Z1" ::
              [mkDescriptor ReplaceOne "B" "B1"]) = ("Z", "A1B").
Proof.
  split; [reflexivity|]. split; [reflexivity|].
  apply (Apply_stops_at_first_failure
           [mkDescriptor ReplaceOne "A" "A1"] (mkDescriptor ReplaceOne "Z" "Z1")
           [mkDescriptor ReplaceOne "B" "B1"] "AB" "A1B"); reflexivity.
Defined.

(** C5, as the code has it.  When [tok] is found at [p1], the buffer is
    [pre ++ tok ++ post] with [pre] of length [p1], no occurrence begins
    below [p1], and [Apply] leaves [pre ++ rep ++ post]: the bytes outside
    the occurrence at [p1], and with them every occurrence at or after the
    end of it, are as they were.  A second application searches the result
    from its start; when no occurrence begins before the end of the
    inserted replacement, it replaces the first occurrence in [post], or
    fails with the token when [post] has none. *)
Theorem replace_one_first_match (file tok rep : bytes) (p1 : nat) :
  find tok file = Some p1 ->
  exists pre post,
    file = pre ++ tok ++ post /\
    length pre = p1 /\
    (forall q, q < p1 -> starts_with tok (skipn q file) = false) /\
    Apply file [mkDescriptor ReplaceOne tok rep] = ([], pre ++ rep ++ post) /\
    (no_match_before tok (pre ++ rep ++ post) (p1 + length rep) = true ->
     Apply (pre ++ rep ++ post) [mkDescriptor ReplaceOne tok rep] =
       match find tok post with
       | Some k => ([], pre ++ rep ++ replace post k (length tok) rep)
       | None => (tok, pre ++ rep ++ post)
       end).
Proof.
  intros F.
  destruct (find_Some _ _ _ F) as (_ & Hle & Hfirst).
  pose proof (find_occurrence _ _ _ F) as Hocc.
  exists (firstn p1 file), (skipn (p1 + length tok) file).
  set (pre := firstn p1 file) in *.
  set (post := skipn (p1 + length tok) file) in *.
  assert (Hlen : length pre = p1) by (apply firstn_length_le; exact Hle).
  repeat split; auto.
  - simpl. unfold apply_desc. simpl. rewrite F. reflexivity.
  - intros Hno.
    assert (Hfind : find tok (pre ++ rep ++ post) =
                    option_map (Nat.add (p1 + length rep)) (find tok post)).
    { rewrite (find_skip tok (p1 + length rep)).
      - rewrite app_assoc, <- Hlen, <- length_app, skipn_exact. reflexivity.
      - rewrite !length_app. lia.
      - now apply no_match_before_spec. }
    simpl. unfold apply_desc. simpl. rewrite Hfind.
    destruct (find tok post) as [k|]; simpl; [|reflexivity].
    f_equal. unfold replace.
    rewrite (app_assoc pre rep post), <- Hlen, <- length_app.
    rewrite firstn_past, <- !Nat.add_assoc, skipn_past.
    now rewrite <- !app_assoc.
Qed.

Lemma replace_one_first_match_witness :
  find "X" "aXbXc" = Some 1 /\
  exists pre post,
    "aXbXc" = pre ++ "X" ++ post /\
    length pre = 1 /\
    (forall q, q < 1 -> starts_with "X" (skipn q "aXbXc") = false) /\
    Apply "aXbXc" [mkDescriptor ReplaceOne "X" "YY"] = ([], pre ++ "YY" ++ post) /\
    (no_match_before "X" (pre ++ "YY" ++ post) (1 + length "YY") = true ->
     Apply (pre ++ "YY" ++ post) [mkDescriptor ReplaceOne "X" "YY"] =
       match find "X" post with
       | Some k => ([], pre ++ "YY" ++ replace post k (length "X") "YY")
       | None => ("X", pre ++ "YY" ++ post)
       end).
Proof.
  split; [reflexivity|].
  apply (replace_one_first_match "aXbXc" "X" "YY" 1). reflexivity.
Defined.

(** The scenario of the design document, computed: two applications of
    [ReplaceOne{token:"X", replacement:"YY"}] to ["aXbXc"]. *)
Example replace_one_twice :
  Apply "aXbXc" [mkDescriptor ReplaceOne "X" "YY"] = ([], "aYYbXc") /\
  Apply "aYYbXc" [mkDescriptor ReplaceOne "X" "YY"] = ([], "aYYbYYc").
Proof. split; reflexivity. Qed.

(** C5 as the design document words it does not hold.  With the token
    ["X"] and the replacement ["XX"], the buffer ["X"] has its only
    occurrence at 0; after the first application no occurrence of the
    original buffer is left, yet the second application does not fail: it
    finds the token inside the replacement.  With the token ["aa"] in
    ["aaa"], the occurrence at 1 overlaps the one at 0 and is gone after
    the first application. *)
Lemma replace_one_second_application_counterexample :
  ~ first_match_as_documented "X" "X" "XX" /\
  ~ first_match_as_documented "aaa" "aa" "b".
Proof.
  split; intros H; unfold first_match_as_documented in H;
    simpl in H; destruct H as [_ H]; discriminate H.
Qed.

(** C6.  When every descriptor of the list is applied, [Apply] returns the
    empty view and the final buffer comes from the initial one by one
    substitution for each descriptor, in order; each substitution keeps
    the bytes before and after the region it replaces. *)
Theorem Apply_success_one_substitution_each
    (descs : list Descriptor) (file file' : bytes) :
  apply_all descs file = Some file' ->
  Apply file descs = ([], file') /\ substitutions descs file file'.
Proof.
  intros H. split; [now apply Apply_all|].
  revert file H. induction descs as [|d descs IH]; intros file H; simpl in H.
  - injection H as <-. constructor.
  - destruct (apply_desc d file) as [file1|] eqn:E; [|discriminate].
    econstructor; [apply apply_desc_substitution; exact E | now apply IH].
Qed.

Lemma Apply_success_one_substitution_each_witness :
  apply_all [mkDescriptor ReplaceOne "X" "YY";
             mkDescriptor ExplicitFunction "foo" "{return 0;}"]
            "X; function foo(a,b) { if(a){b();} return 1; } y"
    = Some "YY; function foo(a,b) {return 0;} y" /\
  Apply "X; function foo(a,b) { if(a){b();} return 1; } y"
        [mkDescriptor ReplaceOne "X" "YY";
         mkDescriptor ExplicitFunction "foo" "{return 0;}"]
    = ([], "YY; function foo(a,b) {return 0;} y") /\
  substitutions [mkDescriptor ReplaceOne "X" "YY";
                 mkDescriptor ExplicitFunction "foo" "{return 0;}"]
                "X; function foo(a,b) { if(a){b();} return 1; } y"
                "YY; function foo(a,b) {return 0;} y".
Proof.
  split; [reflexivity|].
  apply (Apply_success_one_substitution_each
           [mkDescriptor ReplaceOne "X" "YY";
            mkDescriptor ExplicitFunction "foo" "{return 0;}"]
           "X; function foo(a,b) { if(a){b();} return 1; } y"
           "YY; function foo(a,b) {return 0;} y").
  reflexivity.
Defined.

(** C8.  A [ReplaceOne] descriptor with the empty token matches every
    buffer at position 0; [Apply] succeeds and the buffer is the
    replacement followed by all the bytes it held before. *)
Theorem replace_one_empty_token (file rep : bytes) :
  find [] file = Some 0 /\
  apply_desc (mkDescriptor ReplaceOne [] rep) file = Some (rep ++ file) /\
  Apply file [mkDescriptor ReplaceOne [] rep] = ([], rep ++ file).
Proof.
  assert (H : apply_desc (mkDescriptor ReplaceOne [] rep) file = Some (rep ++ file)).
  { unfold apply_desc. simpl. rewrite find_empty. reflexivity. }
  repeat split; [apply find_empty | exact H | simpl; now rewrite H].
Qed.

(** ** The driver *)

Section DriverFacts.

Lemma c_str_terminated (l : bytes) : c_str (l ++ [x00]) = c_str l.
Proof.
  induction l as [|b l IH]; simpl; [reflexivity|].
  destruct (Byte.eqb b x00); [reflexivity | now rewrite IH].
Qed.

Lemma c_str_no_nul (l : bytes) : ~ In x00 l -> c_str l = l.
Proof.
  induction l as [|b l IH]; intros H; simpl; [reflexivity|].
  destruct (Byte.eqb b x00) eqn:E.
  - apply Byte.byte_dec_bl in E. subst b. exfalso. apply H. now left.
  - f_equal. apply IH. intros Hin. apply H. now right.
Qed.

Lemma c_str_at_nul (pre post : bytes) :
  ~ In x00 pre -> c_str (pre ++ x00 :: post) = pre.
Proof.
  induction pre as [|b pre IH]; intros H; simpl; [reflexivity|].
  destruct (Byte.eqb b x00) eqn:E.
  - apply Byte.byte_dec_bl in E. subst b. exfalso. apply H. now left.
  - f_equal. apply IH. intros Hin. apply H. now right.
Qed.

Lemma bytes_eqb_eq (a : bytes) : forall b, bytes_eqb a b = true <-> a = b.
Proof.
  induction a as [|x a IH]; intros [|y b]; simpl; split; intros H;
    try reflexivity; try discriminate.
  - apply andb_prop in H as [H1 H2]. apply Byte.byte_dec_bl in H1.
    apply IH in H2. now subst.
  - injection H as -> ->. rewrite byte_eqb_refl. now apply IH.
Qed.

Lemma bytes_eqb_neq (a b : bytes) : a <> b -> bytes_eqb a b = false.
Proof.
  intros H. destruct (bytes_eqb a b) eqn:E; [|reflexivity].
  apply bytes_eqb_eq in E. contradiction.
Qed.

Lemma lookup_store_other (name other contents : bytes) files :
  name <> other -> lookup other (store name contents files) = lookup other files.
Proof.
  intros H. induction files as [|[n c] files IH]; simpl.
  - rewrite bytes_eqb_neq; auto.
  - destruct (bytes_eqb name n) eqn:E; simpl.
    + apply bytes_eqb_eq in E. subst n. rewrite bytes_eqb_neq; auto.
    + now rewrite IH.
Qed.

(** A write leaves every other file as it is, and leaves the file itself
    as it is when the stream cannot be opened. *)
Lemma WriteFileUTF8_frame (fs : FileSystem) (path contents name : bytes) :
  let fs' := snd (WriteFileUTF8 fs path contents) in
  fs_unwritable fs' = fs_unwritable fs /\
  (name <> c_str path \/ existsb (bytes_eqb name) (fs_unwritable fs) = true ->
   file_contents fs' name = file_contents fs name).
Proof.
  unfold WriteFileUTF8, ofstream_write.
  destruct (existsb (bytes_eqb (c_str path)) (fs_unwritable fs)) eqn:E; simpl.
  - auto.
  - split; [reflexivity|]. intros [H|H].
    + unfold file_contents. simpl. apply lookup_store_other. congruence.
    + unfold file_contents. simpl. apply lookup_store_other.
      intros <-. congruence.
Qed.

(** A run changes no file outside the entries it visits and no file that
    cannot be opened for writing. *)
Lemma main_loop_frame (entries : list (bytes * list Descriptor)) :
  forall fs out code fs' out',
  main_loop entries fs out = (code, fs', out') ->
  fs_unwritable fs' = fs_unwritable fs /\
  forall name,
    ~ In name (names entries) \/ existsb (bytes_eqb name) (fs_unwritable fs) = true ->
    file_contents fs' name = file_contents fs name.
Proof.
  induction entries as [|[file descs] entries IH]; intros fs out code fs' out' H;
    simpl in H.
  - injection H as <- <- <-. auto.
  - destruct (empty (ReadFileUTF8 fs file)).
    { injection H as <- <- <-. auto. }
    destruct (Apply (ReadFileUTF8 fs file) descs) as [tok contents'].
    destruct (negb (empty tok)).
    { injection H as <- <- <-. auto. }
    destruct (WriteFileUTF8 fs file contents') as [ok fs1] eqn:W.
    destruct (IH _ _ _ _ _ H) as [Hu Hf].
    pose proof (WriteFileUTF8_frame fs file contents') as Hw.
    rewrite W in Hw. simpl in Hw.
    split; [destruct (Hw []); congruence|].
    intros name Hname.
    destruct (Hw name) as [Hw1 Hw2].
    rewrite Hf, Hw2; auto.
    + destruct Hname as [Hname|Hname]; [left | now right].
      intros ->. apply Hname. now left.
    + destruct Hname as [Hname|Hname]; [left | right; now rewrite Hw1].
      intros Hin. apply Hname. now right.
Qed.

(** A run that got through a first list of entries goes on with the
    entries that follow. *)
Lemma main_loop_app (pre : list (bytes * list Descriptor)) :
  forall rest fs out fs1 out1,
  main_loop pre fs out = (0%Z, fs1, out1) ->
  main_loop (pre ++ rest) fs out = main_loop rest fs1 out1.
Proof.
  induction pre as [|[file descs] pre IH]; intros rest fs out fs1 out1 H;
    simpl in *.
  - now injection H as <- <-.
  - destruct (empty (ReadFileUTF8 fs file)); [discriminate|].
    destruct (Apply (ReadFileUTF8 fs file) descs) as [tok contents'].
    destruct (negb (empty tok)); [discriminate|].
    destruct (WriteFileUTF8 fs file contents') as [ok fs2].
    now apply IH.
Qed.

Lemma ReadFileUTF8_frame (fs fs' : FileSystem) (path : bytes) :
  file_contents fs' (c_str path) = file_contents fs (c_str path) ->
  ReadFileUTF8 fs' path = ReadFileUTF8 fs path.
Proof.
  unfold ReadFileUTF8, ifstream_read_all. now intros ->.
Qed.

(** What [ReadFileUTF8] returns for a file that can be opened. *)
Lemma ReadFileUTF8_c_str (fs : FileSystem) (path binary : bytes) :
  file_contents fs (c_str path) = Some binary ->
  ReadFileUTF8 fs path = c_str binary.
Proof.
  unfold ReadFileUTF8, ifstream_read_all. intros ->. apply c_str_terminated.
Qed.

Lemma ReadFileUTF8_no_nul (fs : FileSystem) (path binary : bytes) :
  file_contents fs (c_str path) = Some binary ->
  ~ In x00 binary ->
  ReadFileUTF8 fs path = binary.
Proof.
  intros H Hn. rewrite (ReadFileUTF8_c_str _ _ _ H). now apply c_str_no_nul.
Qed.

Lemma empty_false (s : bytes) : s <> [] -> empty s = false.
Proof. destruct s; [contradiction | reflexivity]. Qed.

(** An iteration in which the file is read and the engine returns the
    empty view: whatever the write does, the success line is printed and
    the loop goes on. *)
Lemma main_loop_patched (file : bytes) (descs : list Descriptor)
    (entries : list (bytes * list Descriptor))
    (fs : FileSystem) (out contents' : bytes) :
  ReadFileUTF8 fs file <> [] ->
  Apply (ReadFileUTF8 fs file) descs = ([], contents') ->
  main_loop ((file, descs) :: entries) fs out
    = main_loop entries (snd (WriteFileUTF8 fs file contents'))
                (out ++ msg_patched file).
Proof.
  intros Hread Happly. cbn [main_loop].
  rewrite (empty_false _ Hread), Happly. cbn [empty negb].
  now destruct (WriteFileUTF8 fs file contents').
Qed.

(** *** The entries of [main] *)






Lemma main_not_found (fs : FileSystem) (unpacked : bytes) (reversed : bool) :
  exists_ fs unpacked = false ->
  main fs unpacked reversed = ((-1)%Z, fs, msg_not_found).
Proof. unfold main. now intros ->. Qed.

Lemma main_runs_loop (fs : FileSystem) (unpacked : bytes) (reversed : bool) :
  exists_ fs unpacked = true ->
  main fs unpacked reversed =
  main_loop (if reversed then rev (patches unpacked) else patches unpacked) fs [].
Proof. unfold main. now intros ->. Qed.

End DriverFacts.

(** C3.  A file that holds a NUL byte does not reach the engine whole:
    [ReadFileUTF8] builds its result from a pointer to the bytes, so the
    buffer ends before the first NUL.  When such a file is patched, what is
    written back has lost the NUL and everything after it. *)
Theorem ReadFileUTF8_stops_at_nul :
  let binary := "socket=io.connect(c,b);" ++ [x00] ++ "tail" in
  let fs := mkFS [("lib.js", binary)] [] [] in
  ReadFileUTF8 fs "lib.js" = "socket=io.connect(c,b);" /\
  ReadFileUTF8 fs "lib.js" <> binary /\
  main_loop [("lib.js", kPatchesWebsiteLibMin)] fs []
    = (0%Z,
       mkFS [("lib.js", socket_connect_replacement)] [] [],
       "Patched file:(lib.js)" ++ nl).
Proof. repeat split. discriminate. Qed.

(** C7.  The entries before [file] went through, leaving the file system
    [fs1] and the output [out1]; the engine then returns a token that is
    not empty.  The run ends with status -1, its last line of output names
    the file and the token, and the file system is [fs1]: nothing is
    written for [file], whose contents are those at the start of the run
    when no earlier entry has the same name.  ([printf] prints a string up
    to its first NUL; a string without NUL is printed whole.) *)
Theorem driver_patch_miss
    (pre post : list (bytes * list Descriptor))
    (file : bytes) (descs : list Descriptor)
    (fs fs1 : FileSystem) (out out1 tok contents' : bytes) :
  main_loop pre fs out = (0%Z, fs1, out1) ->
  ReadFileUTF8 fs1 file <> [] ->
  Apply (ReadFileUTF8 fs1 file) descs = (tok, contents') ->
  tok <> [] ->
  main_loop (pre ++ (file, descs) :: post) fs out
    = ((-1)%Z, fs1,
       out1 ++ "Unable to apply all patches to file:(" ++ c_str file ++
               "), token:(" ++ c_str tok ++ ")" ++ nl) /\
  (~ In x00 file -> c_str file = file) /\
  (~ In x00 tok -> c_str tok = tok) /\
  (~ In (c_str file) (names pre) ->
   file_contents fs1 (c_str file) = file_contents fs (c_str file)).
Proof.
  intros Hpre Hread Happly Htok.
  repeat split; try apply c_str_no_nul.
  - rewrite (main_loop_app _ _ _ _ _ _ Hpre). simpl.
    rewrite (empty_false _ Hread), Happly, (empty_false _ Htok). reflexivity.
  - intros Hnew. destruct (main_loop_frame _ _ _ _ _ _ Hpre) as [_ Hf].
    apply Hf. now left.
Qed.

Lemma driver_patch_miss_witness :
  let fs := mkFS [("a.js", "socket=io.connect(c,b);"); ("b.js", "AB")] [] [] in
  let fs1 := mkFS [("a.js", socket_connect_replacement); ("b.js", "AB")] [] [] in
  let descs := [mkDescriptor ReplaceOne "A" "A1"; mkDescriptor ReplaceOne "Z" "Z1"] in
  main_loop [("a.js", kPatchesWebsiteLibMin)] fs [] = (0%Z, fs1, "Patched file:(a.js)" ++ nl) /\
  ReadFileUTF8 fs1 "b.js" <> [] /\
  Apply (ReadFileUTF8 fs1 "b.js") descs = ("Z", "A1B") /\
  "Z" <> [] /\
  main_loop ([("a.js", kPatchesWebsiteLibMin)] ++ ("b.js", descs) :: []) fs []
    = ((-1)%Z, fs1,
       ("Patched file:(a.js)" ++ nl) ++
       "Unable to apply all patches to file:(" ++ c_str "b.js" ++
       "), token:(" ++ c_str "Z" ++ ")" ++ nl) /\
  file_contents fs1 "b.js" = Some "AB".
Proof.
  intros fs fs1 descs.
  assert (H1 : main_loop [("a.js", kPatchesWebsiteLibMin)] fs []
               = (0%Z, fs1, "Patched file:(a.js)" ++ nl)) by reflexivity.
  assert (H2 : ReadFileUTF8 fs1 "b.js" <> []) by discriminate.
  assert (H3 : Apply (ReadFileUTF8 fs1 "b.js") descs = ("Z", "A1B")) by reflexivity.
  assert (H4 : "Z" <> @nil byte) by discriminate.
  split; [exact H1|]. split; [exact H2|]. split; [exact H3|].
  split; [exact H4|]. split; [|reflexivity].
  exact (proj1 (driver_patch_miss [("a.js", kPatchesWebsiteLibMin)] []
                  "b.js" descs fs fs1 [] ("Patched file:(a.js)" ++ nl)
                  "Z" "A1B" H1 H2 H3 H4)).
Defined.

(** C9.  An [ExplicitFunction] descriptor with the empty token looks for
    ["function ("].  When the buffer does not hold it, the descriptor
    fails, [Apply] returns its token, which is the empty view, and the
    descriptors after it are not applied: the caller sees what it sees
    after a success.  The driver writes the buffer back and reports the
    file as patched. *)
Theorem empty_token_failure_returns_empty_view
    (file rep : bytes) (rest : list Descriptor) :
  find "function (" file = None ->
  let desc := mkDescriptor ExplicitFunction [] rep in
  apply_desc desc file = None /\
  Apply file (desc :: rest) = ([], file) /\
  Apply file (desc :: rest) = Apply file [] /\
  forall fs path out,
    ReadFileUTF8 fs path = file ->
    file <> [] ->
    main_loop [(path, desc :: rest)] fs out
      = (0%Z, snd (WriteFileUTF8 fs path file), out ++ msg_patched path).
Proof.
  intros F desc.
  assert (Hfail : apply_desc desc file = None).
  { unfold apply_desc, FindExplicitFunctionBody. simpl.
    change (format_function []) with ("function (" : bytes).
    rewrite F. reflexivity. }
  assert (Happly : Apply file (desc :: rest) = ([], file)).
  { simpl. now rewrite Hfail. }
  repeat split; auto.
  intros fs path out Hread Hne.
  rewrite (main_loop_patched path (desc :: rest) [] fs out file).
  - reflexivity.
  - now rewrite Hread.
  - now rewrite Hread.
Qed.

Lemma empty_token_failure_returns_empty_view_witness :
  let desc := mkDescriptor ExplicitFunction [] "{}" in
  let rest := [mkDescriptor ReplaceOne "a" "b"] in
  find "function (" "abc" = None /\
  apply_desc desc "abc" = None /\
  Apply "abc" (desc :: rest) = ([], "abc") /\
  Apply "abc" (desc :: rest) = Apply "abc" [] /\
  forall fs path out,
    ReadFileUTF8 fs path = "abc" ->
    "abc" <> [] ->
    main_loop [(path, desc :: rest)] fs out
      = (0%Z, snd (WriteFileUTF8 fs path "abc"), out ++ msg_patched path).
Proof.
  intros desc rest. split; [reflexivity|].
  apply (empty_token_failure_returns_empty_view "abc" "{}" rest). reflexivity.
Defined.

Lemma patchable_frame (fs fs' : FileSystem) (e : bytes * list Descriptor) :
  file_contents fs' (c_str (fst e)) = file_contents fs (c_str (fst e)) ->
  patchable fs e -> patchable fs' e.
Proof.
  unfold patchable. intros H. now rewrite (ReadFileUTF8_frame _ _ _ H).
Qed.

Lemma main_loop_all_patched (entries : list (bytes * list Descriptor)) :
  forall fs out,
  NoDup (names entries) ->
  Forall (patchable fs) entries ->
  exists fs',
    main_loop entries fs out
      = (0%Z, fs', out ++ concat (map (fun e => msg_patched (fst e)) entries)).
Proof.
  induction entries as [|[file descs] entries IH]; intros fs out Hnd Hall.
  - exists fs. simpl. now rewrite app_nil_r.
  - inversion Hnd as [|? ? Hnotin Hnd']; subst.
    inversion Hall as [|? ? [Hread Hview] Hall']; subst. simpl in Hread, Hview.
    destruct (Apply (ReadFileUTF8 fs file) descs) as [tok contents'] eqn:A.
    simpl in Hview. subst tok.
    rewrite (main_loop_patched _ _ _ _ _ _ Hread A).
    destruct (IH (snd (WriteFileUTF8 fs file contents')) (out ++ msg_patched file) Hnd')
      as [fs' Hrun].
    + rewrite Forall_forall in *. intros e He.
      apply (patchable_frame fs); [|now apply Hall'].
      apply WriteFileUTF8_frame. left. intros Heq. apply Hnotin.
      simpl. rewrite <- Heq. unfold names. now apply (in_map (fun e => c_str (fst e))).
    + exists fs'. rewrite Hrun. simpl. now rewrite <- app_assoc.
Qed.

Lemma WriteFileUTF8_false (fs : FileSystem) (path contents : bytes) :
  fst (WriteFileUTF8 fs path contents) = false ->
  existsb (bytes_eqb (c_str path)) (fs_unwritable fs) = true.
Proof.
  unfold WriteFileUTF8, ofstream_write.
  destruct (existsb (bytes_eqb (c_str path)) (fs_unwritable fs));
    [reflexivity | discriminate].
Qed.

(** C10.  Nothing in [main] depends on what [WriteFileUTF8] returns.  When
    every file can be read and the engine returns the empty view for each,
    the run prints a success line for every file and ends with status 0,
    whether the writes succeed or not; a file whose write fails is reported
    as patched although its contents are what they were.  (The entries have
    different names, as the keys of the [unordered_map] of [main] have.) *)
Theorem driver_ignores_write_result
    (entries : list (bytes * list Descriptor)) (fs : FileSystem) (out : bytes) :
  NoDup (names entries) ->
  Forall (patchable fs) entries ->
  exists fs',
    main_loop entries fs out
      = (0%Z, fs',
         out ++ concat (map (fun e => "Patched file:(" ++ c_str (fst e) ++ ")" ++ nl)
                            entries)) /\
    forall e contents,
      In e entries ->
      fst (WriteFileUTF8 fs (fst e) contents) = false ->
      file_contents fs' (c_str (fst e)) = file_contents fs (c_str (fst e)).
Proof.
  intros Hnd Hall.
  destruct (main_loop_all_patched entries fs out Hnd Hall) as [fs' Hrun].
  exists fs'. split; [exact Hrun|].
  intros e contents _ Hw.
  destruct (main_loop_frame _ _ _ _ _ _ Hrun) as [_ Hf].
  apply Hf. right. now apply WriteFileUTF8_false in Hw.
Qed.

Lemma driver_ignores_write_result_witness :
  let fs := mkFS [("a.js", "socket=io.connect(c,b);")] [] ["a.js"] in
  let entries := [("a.js", kPatchesWebsiteLibMin)] in
  NoDup (names entries) /\
  Forall (patchable fs) entries /\
  fst (WriteFileUTF8 fs "a.js" socket_connect_replacement) = false /\
  exists fs',
    main_loop entries fs []
      = (0%Z, fs',
         [] ++ concat (map (fun e => "Patched file:(" ++ c_str (fst e) ++ ")" ++ nl)
                           entries)) /\
    forall e contents,
      In e entries ->
      fst (WriteFileUTF8 fs (fst e) contents) = false ->
      file_contents fs' (c_str (fst e)) = file_contents fs (c_str (fst e)).
Proof.
  intros fs entries.
  assert (Hnd : NoDup (names entries)).
  { unfold names, entries. simpl. constructor; [intros [] | constructor]. }
  assert (Hall : Forall (patchable fs) entries).
  { constructor; [|constructor]. split; [discriminate | reflexivity]. }
  split; [exact Hnd|]. split; [exact Hall|]. split; [reflexivity|].
  exact (driver_ignores_write_result entries fs [] Hnd Hall).
Defined.

(** The run of the witness, computed: the write of [a.js] fails, the file
    keeps its contents, the success line is printed and the status is 0. *)
Example patched_line_after_failed_write :
  let fs := mkFS [("a.js", "socket=io.connect(c,b);")] [] ["a.js"] in
  WriteFileUTF8 fs "a.js" socket_connect_replacement = (false, fs) /\
  main_loop [("a.js", kPatchesWebsiteLibMin)] fs []
    = (0%Z, fs, "Patched file:(a.js)" ++ nl).
Proof. split; reflexivity. Qed.

(** * Further properties of the code *)

(** ** [Apply] *)

(** X1.  [Apply] on a list in two parts is [Apply] on the first part
    followed, when every descriptor of the first part applies, by [Apply]
    on the second part from the buffer the first part leaves; when the
    first part fails, the second part is never looked at. *)
Theorem Apply_concatenation (l1 l2 : list Descriptor) (file : bytes) :
  Apply file (l1 ++ l2) =
  match apply_all l1 file with
  | Some file1 => Apply file1 l2
  | None => Apply file l1
  end.
Proof.
  revert file. induction l1 as [|d l1 IH]; intros file; simpl; [reflexivity|].
  destruct (apply_desc d file) as [file1|]; [apply IH | reflexivity].
Qed.

(** X2.  When no descriptor of the list has an empty token, the view that
    [Apply] returns is empty exactly when every descriptor has been
    applied, and the buffer is then the result of applying them all. *)
Theorem Apply_empty_view_iff_all_applied
    (descs : list Descriptor) (file : bytes) :
  Forall (fun d => token d <> []) descs ->
  (fst (Apply file descs) = [] <->
   apply_all descs file = Some (snd (Apply file descs))).
Proof.
  intros Htok. split; intros H.
  - apply Apply_empty_view_all; [exact Htok|].
    destruct (Apply file descs) as [v f]. simpl in *. now subst v.
  - now rewrite (Apply_all _ _ _ H).
Qed.

Lemma Apply_empty_view_iff_all_applied_witness :
  Forall (fun d => token d <> [])
         [mkDescriptor ReplaceOne "A" "A1"; mkDescriptor ReplaceOne "B" "B1"] /\
  (fst (Apply "AB" [mkDescriptor ReplaceOne "A" "A1"; mkDescriptor ReplaceOne "B" "B1"]) = [] <->
   apply_all [mkDescriptor ReplaceOne "A" "A1"; mkDescriptor ReplaceOne "B" "B1"] "AB"
   = Some (snd (Apply "AB" [mkDescriptor ReplaceOne "A" "A1";
                            mkDescriptor ReplaceOne "B" "B1"]))).
Proof.
  assert (H : Forall (fun d => token d <> [])
                [mkDescriptor ReplaceOne "A" "A1"; mkDescriptor ReplaceOne "B" "B1"]).
  { repeat constructor; discriminate. }
  split; [exact H|].
  exact (Apply_empty_view_iff_all_applied _ "AB" H).
Defined.

(** X3.  A [ReplaceOne] descriptor fails exactly when its token is not a
    substring of the buffer; [Apply] then returns the token and the buffer
    keeps every byte, whatever descriptors follow. *)
Theorem replace_one_fails_iff_not_substring
    (tok rep file : bytes) (rest : list Descriptor) :
  (apply_desc (mkDescriptor ReplaceOne tok rep) file = None <->
   ~ exists pre post, file = pre ++ tok ++ post) /\
  (apply_desc (mkDescriptor ReplaceOne tok rep) file = None ->
   Apply file (mkDescriptor ReplaceOne tok rep :: rest) = (tok, file)).
Proof.
  split; [apply apply_desc_ReplaceOne_None|].
  intros H. simpl. now rewrite H.
Qed.

Lemma find_at_start (needle hay : bytes) :
  starts_with needle hay = true -> find needle hay = Some 0.
Proof. intros H. destruct hay; simpl; now rewrite H. Qed.

(** X4.  Undoing a replacement.  When [a] is found in the buffer and is
    replaced by [b], and [b] does not occur in the result before the place
    of the replacement, then replacing [b] by [a] gives the first buffer
    back. *)
Theorem replace_one_undo (file a b : bytes) (p : nat) :
  find a file = Some p ->
  no_match_before b (replace file p (length a) b) p = true ->
  Apply file [mkDescriptor ReplaceOne a b]
    = ([], replace file p (length a) b) /\
  Apply (replace file p (length a) b) [mkDescriptor ReplaceOne b a] = ([], file).
Proof.
  intros F Hno.
  destruct (find_Some _ _ _ F) as (_ & Hle & _).
  pose proof (find_occurrence _ _ _ F) as Hocc.
  assert (Hlen : length (firstn p file) = p) by (apply firstn_length_le; exact Hle).
  split.
  - simpl. unfold apply_desc. simpl. now rewrite F.
  - unfold replace in *.
    set (pre := firstn p file) in *. set (post := skipn (p + length a) file) in *.
    assert (Hfind : find b (pre ++ b ++ post) = Some p).
    { rewrite (find_skip b p).
      - rewrite <- Hlen at 2. rewrite skipn_exact.
        rewrite find_at_start by apply starts_with_app. simpl. f_equal. lia.
      - rewrite length_app. lia.
      - now apply no_match_before_spec. }
    simpl. unfold apply_desc. simpl. rewrite Hfind. unfold replace.
    rewrite <- Hlen at 1. rewrite firstn_exact.
    rewrite <- Hlen at 1. rewrite (app_assoc pre b post), <- length_app, skipn_exact.
    now rewrite <- Hocc.
Qed.

Lemma replace_one_undo_witness :
  find "X" "aXbX" = Some 1 /\
  no_match_before "YY" (replace "aXbX" 1 (length "X") "YY") 1 = true /\
  Apply "aXbX" [mkDescriptor ReplaceOne "X" "YY"]
    = ([], replace "aXbX" 1 (length "X") "YY") /\
  Apply (replace "aXbX" 1 (length "X") "YY") [mkDescriptor ReplaceOne "YY" "X"]
    = ([], "aXbX").
Proof.
  split; [reflexivity|]. split; [reflexivity|].
  exact (replace_one_undo "aXbX" "X" "YY" 1 eq_refl eq_refl).
Defined.

(** ** [FindExplicitFunctionBody] *)

Section ScanContract.

Lemma size_t_mod_pos : (0 < size_t_modulus)%Z.
Proof. reflexivity. Qed.

Lemma scan_body_depth (c : byte) (st : ScanState) :
  (0 <= depth st < size_t_modulus)%Z ->
  depth (scan_body c st) = ((depth st + brace_delta c) mod size_t_modulus)%Z /\
  (0 <= depth (scan_body c st) < size_t_modulus)%Z.
Proof.
  intros Hr. pose proof size_t_mod_pos as Hm.
  unfold scan_body, brace_delta, size_t_incr, size_t_decr.
  destruct (Byte.eqb c "{"); cbn [depth].
  - split; [reflexivity | apply Z.mod_pos_bound; exact Hm].
  - destruct (Byte.eqb c "}"); cbn [depth].
    + split; [reflexivity | apply Z.mod_pos_bound; exact Hm].
    + rewrite Z.add_0_r, Z.mod_small by exact Hr. auto.
Qed.

Lemma scan_body_found (c : byte) (st : ScanState) :
  foundBegin (scan_body c st) = foundBegin st || is_open_brace c.
Proof.
  unfold scan_body, is_open_brace.
  destruct (Byte.eqb c "{"); cbn [foundBegin]; [now rewrite orb_true_r|].
  destruct (Byte.eqb c "}"); cbn [foundBegin]; now rewrite orb_false_r.
Qed.

Lemma scan_body_begin (c : byte) (st : ScanState) :
  begin (scan_body c st) =
  if is_open_brace c then (if foundBegin st then begin st else end_ st)
  else begin st.
Proof.
  unfold scan_body, is_open_brace.
  destruct (Byte.eqb c "{"); [reflexivity|].
  destruct (Byte.eqb c "}"); reflexivity.
Qed.

Lemma stops_after_step (c : byte) (st : ScanState) (rest : bytes) (m : nat) :
  (0 <= depth st < size_t_modulus)%Z ->
  stops_after (scan_body c st) rest m = stops_after st (c :: rest) (S m).
Proof.
  intros Hr. unfold stops_after. cbn [firstn existsb balance fold_right].
  rewrite scan_body_found, <- orb_assoc.
  destruct (scan_body_depth c st Hr) as [-> _].
  fold (balance (firstn m rest)).
  now rewrite Z.add_mod_idemp_l, Z.add_assoc by (pose proof size_t_mod_pos; lia).
Qed.

Lemma stops_after_0 (st : ScanState) (rest : bytes) :
  (0 <= depth st < size_t_modulus)%Z ->
  stops_after st rest 0 = foundBegin st && (depth st =? 0)%Z.
Proof.
  intros Hr. unfold stops_after. cbn [firstn existsb balance fold_right].
  now rewrite orb_false_r, Z.add_0_r, Z.mod_small.
Qed.

(** The loop reads [n] bytes: the least number after which its condition
    fails, or all of them. *)
Lemma scan_trace : forall rest st,
  (0 <= depth st < size_t_modulus)%Z ->
  exists n,
    n <= length rest /\
    end_ (scan rest st) = end_ st + n /\
    begin (scan rest st) =
      (if foundBegin st then begin st
       else match first_open_brace (firstn n rest) with
            | Some o => end_ st + o
            | None => begin st
            end) /\
    (n < length rest -> stops_after st rest n = true) /\
    (forall m, m < n -> stops_after st rest m = false).
Proof.
  induction rest as [|c rest IH]; intros st Hr.
  - exists 0. simpl. repeat split; try lia.
    now destruct (foundBegin st).
  - cbn [scan]. destruct (foundBegin st && (depth st =? 0)%Z) eqn:Estop.
    + exists 0. cbn [firstn first_open_brace length].
      repeat split; try lia.
      * now destruct (foundBegin st).
      * intros _. now rewrite stops_after_0.
    + destruct (scan_body_depth c st Hr) as [_ Hr1].
      destruct (IH (scan_body c st) Hr1) as (n & Hn & He & Hb & Hstop & Hmin).
      exists (S n). cbn [length firstn first_open_brace].
      repeat split.
      * lia.
      * rewrite He, scan_body_end. lia.
      * rewrite Hb, scan_body_found, scan_body_begin, scan_body_end.
        unfold is_open_brace.
        destruct (foundBegin st); cbn [orb]; [now destruct (Byte.eqb c "{")|].
        destruct (Byte.eqb c "{"); [now rewrite Nat.add_0_r|].
        destruct (first_open_brace (firstn n rest)); cbn [option_map]; [lia|reflexivity].
      * intros Hlt. rewrite <- stops_after_step by exact Hr. apply Hstop. lia.
      * intros [|m] Hm.
        -- now rewrite stops_after_0.
        -- rewrite <- stops_after_step by exact Hr. apply Hmin. lia.
Qed.

Lemma first_open_brace_firstn : forall (l : bytes) n o,
  first_open_brace (firstn n l) = Some o ->
  first_open_brace l = Some o /\ o < n.
Proof.
  induction l as [|c l IH]; intros [|n] o H; simpl in *; try discriminate.
  destruct (Byte.eqb c "{").
  - injection H as <-. split; [reflexivity | lia].
  - destruct (first_open_brace (firstn n l)) as [o'|] eqn:E; [|discriminate].
    injection H as <-. destruct (IH _ _ E) as [-> Hlt]. split; [reflexivity | lia].
Qed.

Lemma existsb_first_open : forall (l : bytes),
  existsb is_open_brace l = true -> exists o, first_open_brace l = Some o.
Proof.
  induction l as [|c l IH]; simpl; [discriminate|]. unfold is_open_brace at 1.
  destruct (Byte.eqb c "{"); [eauto|]. simpl. intros H.
  destruct (IH H) as [o ->]. simpl. eauto.
Qed.

Lemma first_open_existsb : forall (l : bytes) o m,
  first_open_brace l = Some o -> o < m ->
  existsb is_open_brace (firstn m l) = true.
Proof.
  induction l as [|c l IH]; intros o [|m] H Hlt; simpl in *;
    try discriminate; try lia.
  unfold is_open_brace at 1. destruct (Byte.eqb c "{"); [reflexivity|].
  destruct (first_open_brace l) as [o'|] eqn:E; [|discriminate].
  injection H as <-. simpl. apply (IH o'); [reflexivity | lia].
Qed.

Lemma first_open_before : forall (l : bytes) o m,
  first_open_brace l = Some o -> m <= o ->
  existsb is_open_brace (firstn m l) = false.
Proof.
  induction l as [|c l IH]; intros o [|m] H Hle; simpl in *;
    try discriminate; try reflexivity.
  unfold is_open_brace at 1. destruct (Byte.eqb c "{").
  - injection H as <-. lia.
  - destruct (first_open_brace l) as [o'|] eqn:E; [|discriminate].
    injection H as <-. simpl. apply (IH o'); [reflexivity | lia].
Qed.

Lemma first_open_brace_nth : forall (l : bytes) o,
  first_open_brace l = Some o -> nth_error l o = Some x7b /\ o < length l.
Proof.
  induction l as [|c l IH]; intros o H; simpl in *; [discriminate|].
  destruct (Byte.eqb c "{") eqn:Eo.
  - injection H as <-. apply Byte.byte_dec_bl in Eo. subst c. simpl. split; [reflexivity | lia].
  - destruct (first_open_brace l) as [o'|] eqn:E; [|discriminate].
    injection H as <-. destruct (IH _ eq_refl). simpl. split; [assumption | lia].
Qed.

End ScanContract.

(** Where the scan of a haystack stops, when it reports a region. *)
Lemma FindExplicitFunctionBody_trace (haystack function : bytes) (b e : nat) :
  FindExplicitFunctionBody haystack function = (b, e) ->
  (b, e) <> (0, 0) ->
  exists def o n,
    find (format_function function) haystack = Some def /\
    first_open_brace (skipn def haystack) = Some o /\
    b = def + o /\ e = def + n /\ o < n /\ def + n < length haystack /\
    stops_after (mkScan def def false 0) (skipn def haystack) n = true /\
    (forall m, m < n ->
       stops_after (mkScan def def false 0) (skipn def haystack) m = false).
Proof.
  unfold FindExplicitFunctionBody.
  destruct (find (format_function function) haystack) as [def|] eqn:F;
    [|intros H; injection H as <- <-; congruence].
  destruct (find_Some _ _ _ F) as (_ & Hle & _).
  assert (Hrest : length (skipn def haystack) = length haystack - def)
    by apply length_skipn.
  destruct (scan_trace (skipn def haystack) (mkScan def def false 0))
    as (n & Hn & He & Hb & Hstop & Hmin).
  { cbn [depth]. pose proof size_t_mod_pos. lia. }
  cbn [end_ begin foundBegin] in He, Hb. cbv zeta. rewrite He.
  destruct (def + n =? length haystack) eqn:E;
    [intros H; injection H as <- <-; congruence|].
  apply Nat.eqb_neq in E. intros H _. injection H as <- <-.
  assert (Hlt : n < length (skipn def haystack)) by lia.
  specialize (Hstop Hlt).
  pose proof Hstop as Hfound. unfold stops_after in Hfound.
  apply andb_prop in Hfound as [Hfound _]. cbn [foundBegin orb] in Hfound.
  destruct (existsb_first_open _ Hfound) as [o Ho].
  destruct (first_open_brace_firstn _ _ _ Ho) as [Ho' Hon].
  exists def, o, n. rewrite Hb, Ho. repeat split; auto. lia.
Qed.

Lemma first_open_brace_firstn_intro : forall (l : bytes) o n,
  first_open_brace l = Some o -> o < n ->
  first_open_brace (firstn n l) = Some o.
Proof.
  induction l as [|c l IH]; intros o [|n] H Hlt; simpl in *;
    try discriminate; try lia.
  destruct (Byte.eqb c "{"); [exact H|].
  destruct (first_open_brace l) as [o'|] eqn:E; [|discriminate].
  injection H as <-. rewrite (IH o' n eq_refl); [reflexivity | lia].
Qed.

Lemma stops_after_initial (def : nat) (rest : bytes) (m : nat) :
  stops_after (mkScan def def false 0) rest m =
  existsb is_open_brace (firstn m rest) &&
  (balance (firstn m rest) mod size_t_modulus =? 0)%Z.
Proof. reflexivity. Qed.

(** The first opening brace at or after the anchor comes after the first
    byte of the anchor. *)
Lemma anchor_open_brace_offset (haystack function : bytes) (def o : nat) :
  find (format_function function) haystack = Some def ->
  first_open_brace (skipn def haystack) = Some o ->
  0 < o.
Proof.
  intros F O. destruct (find_Some _ _ _ F) as (Hs & _ & _).
  apply starts_with_inv in Hs.
  destruct (skipn def haystack) as [|c l]; [discriminate|].
  injection Hs as -> _. simpl in O.
  destruct (first_open_brace l); [|discriminate]. injection O as <-. lia.
Qed.

(** X5.  What [FindExplicitFunctionBody] returns is either the pair
    [(0, 0)] or a pair [(b, e)] with [0 < b < e < haystack.size()] whose
    first index holds an opening brace.  So the test [!begin || !end] of
    [Apply] rejects the pair [(0, 0)] and nothing else, and the [replace]
    that follows stays inside the file. *)
Theorem FindExplicitFunctionBody_region (haystack function rep : bytes) :
  (FindExplicitFunctionBody haystack function = (0, 0) \/
   exists b e,
     FindExplicitFunctionBody haystack function = (b, e) /\
     0 < b /\ b < e /\ e < length haystack /\
     nth_error haystack b = Some x7b) /\
  (apply_desc (mkDescriptor ExplicitFunction function rep) haystack = None <->
   FindExplicitFunctionBody haystack function = (0, 0)).
Proof.
  destruct (FindExplicitFunctionBody haystack function) as [b e] eqn:F.
  assert (Hcases : (b, e) = (0, 0) \/
                   (0 < b /\ b < e /\ e < length haystack /\
                    nth_error haystack b = Some x7b)).
  { destruct (FindExplicitFunctionBody_bounds _ _ _ _ F)
      as [[-> ->]|(Hbe & Hel & Hnth)]; [now left|right].
    destruct (FindExplicitFunctionBody_trace _ _ _ _ F)
      as (def & o & n & Hf & Ho & -> & _); [intros E; injection E; lia|].
    pose proof (anchor_open_brace_offset _ _ _ _ Hf Ho).
    repeat split; auto. lia. }
  split.
  - destruct Hcases as [->|H]; [now left|right]. now exists b, e.
  - unfold apply_desc. cbn [type token replacement]. rewrite F.
    destruct Hcases as [E|(Hb & Hbe & _)].
    + injection E as -> ->. simpl. tauto.
    + destruct b as [|b]; [lia|]. destruct e as [|e]; [lia|]. simpl.
      split; intros H; discriminate H.
Qed.

(** X6.  The exact region.  [FindExplicitFunctionBody] reports [(b, e)]
    exactly when the anchor is found at some [def], [b] is the index of the
    first opening brace at or after [def], and [e], below the size of the
    haystack, is the least index above [b] at which the number of
    opening braces minus the number of closing braces in
    [haystack[def .. e)] is a multiple of [2^64].  The count starts at the
    anchor, not at the opening brace. *)
Theorem FindExplicitFunctionBody_contract (haystack function : bytes) (b e : nat) :
  (FindExplicitFunctionBody haystack function = (b, e) /\ (b, e) <> (0, 0)) <->
  exists def o n,
    find (format_function function) haystack = Some def /\
    first_open_brace (skipn def haystack) = Some o /\
    b = def + o /\ e = def + n /\ o < n /\ def + n < length haystack /\
    (balance (firstn n (skipn def haystack)) mod size_t_modulus = 0)%Z /\
    (forall m, o < m < n ->
       (balance (firstn m (skipn def haystack)) mod size_t_modulus <> 0)%Z).
Proof.
  split.
  - intros [F Hne].
    destruct (FindExplicitFunctionBody_trace _ _ _ _ F Hne)
      as (def & o & n & Hf & Ho & Hb & He & Hon & Hlen & Hstop & Hmin).
    exists def, o, n. repeat split; auto.
    + rewrite stops_after_initial in Hstop.
      apply andb_prop in Hstop as [_ Hz]. now apply Z.eqb_eq in Hz.
    + intros m [Hom Hmn] Hz. specialize (Hmin m Hmn).
      rewrite stops_after_initial, (first_open_existsb _ _ _ Ho Hom) in Hmin.
      apply Z.eqb_eq in Hz. rewrite Hz in Hmin. discriminate.
  - intros (def & o & n & Hf & Ho & -> & -> & Hon & Hlen & Hz & Hmin).
    split; [|intros E; injection E; lia].
    unfold FindExplicitFunctionBody. rewrite Hf.
    assert (Hrest : length (skipn def haystack) = length haystack - def)
      by apply length_skipn.
    destruct (scan_trace (skipn def haystack) (mkScan def def false 0))
      as (n' & Hn' & He & Hb & Hstop' & Hmin').
    { cbn [depth]. pose proof size_t_mod_pos. lia. }
    cbn [end_ begin foundBegin] in He, Hb. cbv zeta.
    assert (Hn : n' = n).
    { destruct (Nat.lt_trichotomy n' n) as [Hlt|[Heq|Hgt]]; [|exact Heq|].
      - exfalso. assert (Hl : n' < length (skipn def haystack)) by lia.
        specialize (Hstop' Hl). rewrite stops_after_initial in Hstop'.
        apply andb_prop in Hstop' as [Hfound Hz'].
        apply Z.eqb_eq in Hz'.
        destruct (le_lt_dec n' o) as [Hle|Hon'].
        + rewrite (first_open_before _ _ _ Ho Hle) in Hfound. discriminate.
        + apply (Hmin n'); [lia | exact Hz'].
      - exfalso. specialize (Hmin' n Hgt).
        rewrite stops_after_initial, (first_open_existsb _ _ _ Ho Hon) in Hmin'.
        apply Z.eqb_eq in Hz. rewrite Hz in Hmin'. discriminate. }
    subst n'. rewrite He, Hb.
    rewrite (first_open_brace_firstn_intro _ _ _ Ho Hon).
    destruct (def + n =? length haystack) eqn:E; [|reflexivity].
    apply Nat.eqb_eq in E. lia.
Qed.

Lemma FindExplicitFunctionBody_contract_witness :
  (FindExplicitFunctionBody "function g(a = '}') { return 1; } x" "g" = (20, 21) /\
   (20, 21) <> (0, 0)) <->
  exists def o n,
    find (format_function "g") "function g(a = '}') { return 1; } x" = Some def /\
    first_open_brace (skipn def "function g(a = '}') { return 1; } x") = Some o /\
    20 = def + o /\ 21 = def + n /\ o < n /\
    def + n < length "function g(a = '}') { return 1; } x" /\
    (balance (firstn n (skipn def "function g(a = '}') { return 1; } x"))
       mod size_t_modulus = 0)%Z /\
    (forall m, o < m < n ->
       (balance (firstn m (skipn def "function g(a = '}') { return 1; } x"))
          mod size_t_modulus <> 0)%Z).
Proof.
  exact (FindExplicitFunctionBody_contract
           "function g(a = '}') { return 1; } x" "g" 20 21).
Defined.

Lemma nth_error_skipn_add : forall (l : bytes) k i,
  nth_error (skipn k l) i = nth_error l (k + i).
Proof.
  induction l as [|c l IH]; intros [|k] i; simpl; try reflexivity.
  - now destruct i.
  - apply IH.
Qed.

Lemma matching_brace_nth : forall (rest : bytes) d k,
  matching_brace rest d = Some k -> nth_error rest k = Some x7d.
Proof.
  induction rest as [|c rest IH]; intros d k H; simpl in H; [discriminate|].
  destruct (Byte.eqb c "{").
  - destruct (matching_brace rest (S d)) as [k'|] eqn:E; [|discriminate].
    injection H as <-. simpl. now apply (IH (S d)).
  - destruct (Byte.eqb c "}") eqn:Ec.
    + destruct d as [|[|d]]; [discriminate| |].
      * injection H as <-. apply Byte.byte_dec_bl in Ec. now subst c.
      * destruct (matching_brace rest (S d)) as [k'|] eqn:E; [|discriminate].
        injection H as <-. simpl. now apply (IH (S d)).
    + destruct (matching_brace rest d) as [k'|] eqn:E; [|discriminate].
      injection H as <-. simpl. now apply (IH d).
Qed.

(** The two ends of the region found by brace matching hold an opening and
    a closing brace. *)
Lemma documented_body_braces (haystack function : bytes) (b ei : nat) :
  documented_body haystack function = Some (b, ei) ->
  nth_error haystack b = Some x7b /\ nth_error haystack ei = Some x7d.
Proof.
  unfold documented_body.
  destruct (find (format_function function) haystack) as [def|]; [|discriminate].
  destruct (first_open_brace (skipn def haystack)) as [o|] eqn:O; [|discriminate].
  destruct (matching_brace (skipn (S (def + o)) haystack) 1) as [k|] eqn:M;
    [|discriminate].
  intros H. injection H as <- <-.
  destruct (first_open_brace_nth _ _ O) as [Hb _].
  apply matching_brace_nth in M.
  rewrite nth_error_skipn_add in Hb, M. auto.
Qed.

(** X7.  Brace matching.  On a buffer shorter than [2^64] bytes in which no
    closing brace stands between the anchor and the first opening brace
    after it, an [ExplicitFunction] descriptor does the following.  When
    the first opening brace after the anchor, at [b], has a matching
    closing brace at [ei] that is not the last byte of the buffer, the
    bytes [b .. ei], braces included, give way to the replacement and
    [Apply] goes on.  When the matching brace is the last byte, or there is
    no anchor, no opening brace or no matching brace, [Apply] returns the
    token and keeps the buffer. *)
Theorem explicit_function_replaces_matched_braces
    (file tok rep : bytes) (rest : list Descriptor) :
  (Z.of_nat (length file) < size_t_modulus)%Z ->
  no_stray_close file tok = true ->
  match documented_body file tok with
  | Some (b, ei) =>
      nth_error file b = Some x7b /\ nth_error file ei = Some x7d /\
      Apply file (mkDescriptor ExplicitFunction tok rep :: rest) =
        if S ei =? length file then (tok, file)
        else Apply (firstn b file ++ rep ++ skipn (S ei) file) rest
  | None =>
      Apply file (mkDescriptor ExplicitFunction tok rep :: rest) = (tok, file)
  end.
Proof.
  intros Hlen Hclose.
  pose proof (apply_desc_documented file tok rep Hlen Hclose) as H.
  cbn [Apply]. rewrite H.
  destruct (documented_body file tok) as [[b ei]|] eqn:D; [|reflexivity].
  destruct (documented_body_braces _ _ _ _ D) as [Hb He].
  repeat split; auto. now destruct (S ei =? length file).
Qed.

Lemma explicit_function_replaces_matched_braces_witness :
  (Z.of_nat (length "x; function foo(a,b) { if(a){b();} return 1; } y")
   < size_t_modulus)%Z /\
  no_stray_close "x; function foo(a,b) { if(a){b();} return 1; } y" "foo" = true /\
  documented_body "x; function foo(a,b) { if(a){b();} return 1; } y" "foo"
    = Some (21, 45) /\
  match documented_body "x; function foo(a,b) { if(a){b();} return 1; } y" "foo" with
  | Some (b, ei) =>
      nth_error "x; function foo(a,b) { if(a){b();} return 1; } y" b = Some x7b /\
      nth_error "x; function foo(a,b) { if(a){b();} return 1; } y" ei = Some x7d /\
      Apply "x; function foo(a,b) { if(a){b();} return 1; } y"
            (mkDescriptor ExplicitFunction "foo" "{return 0;}" :: []) =
        if S ei =? length "x; function foo(a,b) { if(a){b();} return 1; } y"
        then ("foo", "x; function foo(a,b) { if(a){b();} return 1; } y")
        else Apply (firstn b "x; function foo(a,b) { if(a){b();} return 1; } y"
                    ++ "{return 0;}" ++
                    skipn (S ei) "x; function foo(a,b) { if(a){b();} return 1; } y") []
  | None =>
      Apply "x; function foo(a,b) { if(a){b();} return 1; } y"
            (mkDescriptor ExplicitFunction "foo" "{return 0;}" :: [])
        = ("foo", "x; function foo(a,b) { if(a){b();} return 1; } y")
  end.
Proof.
  split; [reflexivity|]. split; [reflexivity|]. split; [reflexivity|].
  exact (explicit_function_replaces_matched_braces
           "x; function foo(a,b) { if(a){b();} return 1; } y" "foo" "{return 0;}" []
           eq_refl eq_refl).
Defined.

(** X8.  An [ExplicitFunction] descriptor fails, whatever the braces of
    the buffer, when the anchor [function NAME(] is not in the buffer or
    no opening brace follows it: [Apply] returns the token and keeps the
    buffer. *)
Theorem explicit_function_without_body
    (file tok rep : bytes) (rest : list Descriptor) :
  find (format_function tok) file = None \/
  (exists def, find (format_function tok) file = Some def /\
               first_open_brace (skipn def file) = None) ->
  Apply file (mkDescriptor ExplicitFunction tok rep :: rest) = (tok, file).
Proof.
  intros H.
  assert (F : FindExplicitFunctionBody file tok = (0, 0)).
  { unfold FindExplicitFunctionBody.
    destruct H as [Hn | (def & Hf & O)]; [now rewrite Hn|].
    rewrite Hf. destruct (find_Some _ _ _ Hf) as (_ & Hle & _).
    cbv zeta. rewrite scan_no_open_brace by exact O.
    rewrite length_skipn.
    replace (def + (length file - def)) with (length file) by lia.
    now rewrite Nat.eqb_refl. }
  cbn [Apply]. unfold apply_desc. cbn [type token]. now rewrite F.
Qed.

Lemma explicit_function_without_body_witness :
  (find (format_function "baz") "function bar(){}" = None \/
   (exists def, find (format_function "baz") "function bar(){}" = Some def /\
                first_open_brace (skipn def "function bar(){}") = None)) /\
  Apply "function bar(){}" (mkDescriptor ExplicitFunction "baz" "{}" :: [])
    = ("baz", "function bar(){}").
Proof.
  assert (H : find (format_function "baz") "function bar(){}" = None \/
              (exists def, find (format_function "baz") "function bar(){}" = Some def /\
                           first_open_brace (skipn def "function bar(){}") = None))
    by (left; reflexivity).
  split; [exact H|].
  exact (explicit_function_without_body "function bar(){}" "baz" "{}" [] H).
Defined.

Lemma firstn_of_patched : forall (l : bytes) k b (x : bytes),
  k <= b -> b <= length l -> firstn k (firstn b l ++ x) = firstn k l.
Proof.
  induction l as [|c l IH]; intros k b x Hk Hb; simpl in Hb.
  - assert (b = 0) by lia. assert (k = 0) by lia. now subst.
  - destruct b as [|b]; [assert (k = 0) by lia; now subst|].
    destruct k as [|k]; [reflexivity|]. simpl. f_equal. apply IH; lia.
Qed.

Lemma starts_with_firstn : forall (needle hay : bytes) k,
  length needle <= k ->
  starts_with needle (firstn k hay) = starts_with needle hay.
Proof.
  induction needle as [|a needle IH]; intros hay k Hk; [reflexivity|].
  simpl in Hk. destruct k as [|k]; [lia|].
  destruct hay as [|c hay]; [reflexivity|]. simpl. f_equal. apply IH. lia.
Qed.

(** What [find] returns depends only on the bytes up to the end of the
    occurrence it finds. *)
Lemma find_prefix_determined (needle : bytes) : forall p hay hay',
  find needle hay = Some p ->
  firstn (p + length needle) hay' = firstn (p + length needle) hay ->
  find needle hay' = Some p.
Proof.
  induction p as [|p IH]; intros hay hay' F E.
  - destruct (find_Some _ _ _ F) as (Hs & _ & _). simpl in Hs, E.
    apply find_at_start.
    rewrite <- (starts_with_firstn needle hay' (length needle)) by lia.
    rewrite E. now rewrite starts_with_firstn by lia.
  - destruct hay as [|a hay].
    { simpl in F. destruct (starts_with needle []); discriminate. }
    simpl in F. destruct (starts_with needle (a :: hay)) eqn:S0; [discriminate|].
    destruct (find needle hay) as [p'|] eqn:F'; [|discriminate].
    injection F as ->. simpl in E.
    destruct hay' as [|a' hay']; [discriminate|].
    simpl in E. injection E as -> E.
    simpl.
    assert (S1 : starts_with needle (a :: hay') = false).
    { rewrite <- (starts_with_firstn needle (a :: hay') (S (p + length needle))) by lia.
      simpl firstn. rewrite E.
      change (a :: firstn (p + length needle) hay)
        with (firstn (S (p + length needle)) (a :: hay)).
      now rewrite starts_with_firstn by lia. }
    rewrite S1. now rewrite (IH hay hay' F' E).
Qed.

(** X9.  The header stays.  When the name of the function holds no opening
    brace and the descriptor is applied, the replaced region begins after
    the anchor [function NAME(]: the bytes of the buffer up to the end of
    the anchor are kept, and the anchor is found again at the same place
    in the patched buffer. *)
Theorem explicit_function_keeps_header (file tok rep file' : bytes) :
  existsb is_open_brace tok = false ->
  apply_desc (mkDescriptor ExplicitFunction tok rep) file = Some file' ->
  exists def,
    find (format_function tok) file = Some def /\
    firstn (def + length (format_function tok)) file'
      = firstn (def + length (format_function tok)) file /\
    find (format_function tok) file' = Some def.
Proof.
  intros Htok. unfold apply_desc. cbn [type token replacement].
  destruct (FindExplicitFunctionBody file tok) as [b e] eqn:F.
  destruct ((b =? 0) || (e =? 0)) eqn:Z; [discriminate|].
  intros H. injection H as <-.
  apply orb_false_elim in Z as [Zb Ze]. apply Nat.eqb_neq in Zb, Ze.
  destruct (FindExplicitFunctionBody_trace _ _ _ _ F)
    as (def & o & n & Hf & Ho & -> & -> & Hon & Hlen & _);
    [intros E; injection E; lia|].
  exists def.
  destruct (find_Some _ _ _ Hf) as (Hs & Hle & _).
  apply starts_with_inv in Hs.
  assert (Hanchor : existsb is_open_brace (format_function tok) = false).
  { unfold format_function. rewrite !existsb_app, Htok. reflexivity. }
  assert (Hge : length (format_function tok) <= o).
  { destruct (le_lt_dec (length (format_function tok)) o) as [|Hlt]; [assumption|].
    pose proof (first_open_existsb _ _ _ Ho Hlt) as Hex.
    rewrite Hs, firstn_exact, Hanchor in Hex. discriminate. }
  assert (Hkeep : firstn (def + length (format_function tok))
                    (replace file (def + o) (def + n - (def + o)) rep)
                  = firstn (def + length (format_function tok)) file).
  { unfold replace. apply firstn_of_patched; lia. }
  repeat split; [exact Hf | exact Hkeep |].
  exact (find_prefix_determined _ _ _ _ Hf Hkeep).
Qed.

Lemma explicit_function_keeps_header_witness :
  existsb is_open_brace "foo" = false /\
  apply_desc (mkDescriptor ExplicitFunction "foo" "{return 0;}")
             "x; function foo(a,b) { if(a){b();} return 1; } y"
    = Some "x; function foo(a,b) {return 0;} y" /\
  exists def,
    find (format_function "foo") "x; function foo(a,b) { if(a){b();} return 1; } y"
      = Some def /\
    firstn (def + length (format_function "foo")) "x; function foo(a,b) {return 0;} y"
      = firstn (def + length (format_function "foo"))
               "x; function foo(a,b) { if(a){b();} return 1; } y" /\
    find (format_function "foo") "x; function foo(a,b) {return 0;} y" = Some def.
Proof.
  split; [reflexivity|]. split; [reflexivity|].
  exact (explicit_function_keeps_header
           "x; function foo(a,b) { if(a){b();} return 1; } y" "foo" "{return 0;}"
           "x; function foo(a,b) {return 0;} y" eq_refl eq_refl).
Defined.

(** ** [ReadFileUTF8] and [WriteFileUTF8] *)

Lemma c_str_prefix (l : bytes) :
  exists rest,
    l = c_str l ++ rest /\ ~ In x00 (c_str l) /\
    (rest = [] \/ exists r, rest = x00 :: r).
Proof.
  induction l as [|b l (rest & Hl & Hn & Hr)]; simpl.
  - exists []. auto.
  - destruct (Byte.eqb b x00) eqn:E.
    + apply Byte.byte_dec_bl in E. subst b. exists (x00 :: l). simpl.
      repeat split; [intros [] | right; now exists l].
    + exists rest. simpl. repeat split.
      * now rewrite <- Hl.
      * intros [->|Hin]; [|now apply Hn]. now rewrite byte_eqb_refl in E.
      * exact Hr.
Qed.

Lemma lookup_store_same (name contents : bytes) files :
  lookup name (store name contents files) = Some contents.
Proof.
  induction files as [|[n c] files IH]; simpl.
  - now rewrite (proj2 (bytes_eqb_eq name name) eq_refl).
  - destruct (bytes_eqb name n) eqn:E; simpl; rewrite E; [reflexivity | exact IH].
Qed.

(** X10.  For a file that can be opened, the buffer that [ReadFileUTF8]
    returns is the longest beginning of the file without a NUL: it has no
    NUL, and what follows it in the file is nothing or begins with a
    NUL. *)
Theorem ReadFileUTF8_longest_prefix_without_nul
    (fs : FileSystem) (path binary : bytes) :
  file_contents fs (c_str path) = Some binary ->
  exists rest,
    binary = ReadFileUTF8 fs path ++ rest /\
    ~ In x00 (ReadFileUTF8 fs path) /\
    (rest = [] \/ exists r, rest = x00 :: r).
Proof.
  intros H. rewrite (ReadFileUTF8_c_str _ _ _ H). apply c_str_prefix.
Qed.

Lemma ReadFileUTF8_longest_prefix_without_nul_witness :
  let fs := mkFS [("lib.js", "ab" ++ [x00] ++ "cd")] [] [] in
  file_contents fs (c_str "lib.js") = Some ("ab" ++ [x00] ++ "cd") /\
  exists rest,
    "ab" ++ [x00] ++ "cd" = ReadFileUTF8 fs "lib.js" ++ rest /\
    ~ In x00 (ReadFileUTF8 fs "lib.js") /\
    (rest = [] \/ exists r, rest = x00 :: r).
Proof.
  intros fs. split; [reflexivity|].
  exact (ReadFileUTF8_longest_prefix_without_nul fs "lib.js" _ eq_refl).
Defined.

(** X11.  Reading back what was written.  After a [WriteFileUTF8] that
    succeeds the file holds the bytes written, all of them, and
    [ReadFileUTF8] of the same path returns them up to the first NUL: the
    two functions are inverse to each other on contents without NUL
    only. *)
Theorem WriteFileUTF8_then_ReadFileUTF8
    (fs : FileSystem) (path contents : bytes) :
  fst (WriteFileUTF8 fs path contents) = true ->
  file_contents (snd (WriteFileUTF8 fs path contents)) (c_str path)
    = Some contents /\
  ReadFileUTF8 (snd (WriteFileUTF8 fs path contents)) path = c_str contents /\
  (~ In x00 contents ->
   ReadFileUTF8 (snd (WriteFileUTF8 fs path contents)) path = contents).
Proof.
  intros Hw.
  assert (Hc : file_contents (snd (WriteFileUTF8 fs path contents)) (c_str path)
               = Some contents).
  { unfold WriteFileUTF8, ofstream_write in *.
    destruct (existsb (bytes_eqb (c_str path)) (fs_unwritable fs));
      [discriminate|].
    unfold file_contents. simpl. apply lookup_store_same. }
  repeat split; [exact Hc | now apply ReadFileUTF8_c_str |].
  intros Hn. now apply ReadFileUTF8_no_nul.
Qed.

Lemma WriteFileUTF8_then_ReadFileUTF8_witness :
  let fs := mkFS [("a.js", "old")] [] [] in
  fst (WriteFileUTF8 fs "a.js" ("new" ++ [x00] ++ "tail")) = true /\
  file_contents (snd (WriteFileUTF8 fs "a.js" ("new" ++ [x00] ++ "tail"))) (c_str "a.js")
    = Some ("new" ++ [x00] ++ "tail") /\
  ReadFileUTF8 (snd (WriteFileUTF8 fs "a.js" ("new" ++ [x00] ++ "tail"))) "a.js"
    = c_str ("new" ++ [x00] ++ "tail") /\
  (~ In x00 ("new" ++ [x00] ++ "tail") ->
   ReadFileUTF8 (snd (WriteFileUTF8 fs "a.js" ("new" ++ [x00] ++ "tail"))) "a.js"
   = "new" ++ [x00] ++ "tail").
Proof.
  intros fs. split; [reflexivity|].
  exact (WriteFileUTF8_then_ReadFileUTF8 fs "a.js" ("new" ++ [x00] ++ "tail") eq_refl).
Defined.

(** ** The loop of [main] *)








Lemma fully_patchable_frame (fs fs' : FileSystem) (e : bytes * list Descriptor) :
  file_contents fs' (c_str (fst e)) = file_contents fs (c_str (fst e)) ->
  fully_patchable fs e -> fully_patchable fs' e.
Proof.
  unfold fully_patchable. intros H. now rewrite (ReadFileUTF8_frame _ _ _ H).
Qed.

Lemma fully_patchable_patchable (fs : FileSystem) (e : bytes * list Descriptor) :
  fully_patchable fs e -> patchable fs e.
Proof.
  intros [Hr Ha]. split; [exact Hr|].
  destruct (apply_all (snd e) (ReadFileUTF8 fs (fst e))) as [f|] eqn:E;
    [|contradiction].
  now rewrite (Apply_all _ _ _ E).
Qed.

(** The status of a run over entries without empty tokens and with
    different names is 0 exactly when every file can be read and every
    descriptor applies to its file. *)
Lemma main_loop_zero_iff (entries : list (bytes * list Descriptor)) :
  forall (fs : FileSystem) (out : bytes),
  NoDup (names entries) ->
  Forall (fun e => Forall (fun d => token d <> []) (snd e)) entries ->
  (fst (fst (main_loop entries fs out)) = 0%Z <->
   Forall (fully_patchable fs) entries).
Proof.
  intros fs out Hnd Htok. split.
  - revert fs out Hnd Htok.
    induction entries as [|[file descs] entries IH]; intros fs out Hnd Htok H;
      [constructor|].
    inversion Hnd as [|? ? Hnotin Hnd']; subst.
    inversion Htok as [|? ? Hd Htok']; subst. simpl in Hd.
    cbn [main_loop] in H.
    destruct (empty (ReadFileUTF8 fs file)) eqn:Er; [discriminate H|].
    destruct (Apply (ReadFileUTF8 fs file) descs) as [tok contents'] eqn:A.
    destruct (negb (empty tok)) eqn:Et; [discriminate H|].
    assert (tok = []) by (destruct tok; [reflexivity | discriminate Et]). subst tok.
    pose proof (Apply_empty_view_all _ _ _ Hd A) as Hall.
    destruct (WriteFileUTF8 fs file contents') as [ok fs1] eqn:W.
    constructor.
    + split; simpl; [|congruence].
      intros E. rewrite E in Er. discriminate Er.
    + specialize (IH fs1 _ Hnd' Htok' H).
      rewrite Forall_forall in *. intros e He.
      apply (fully_patchable_frame fs1); [|now apply IH].
      pose proof (WriteFileUTF8_frame fs file contents' (c_str (fst e))) as Hw.
      rewrite W in Hw. simpl in Hw. symmetry. apply Hw. left.
      intros Heq. apply Hnotin. rewrite <- Heq.
      unfold names. now apply (in_map (fun e => c_str (fst e))).
  - intros Hall.
    destruct (main_loop_all_patched entries fs out Hnd) as [fs' ->];
      [|reflexivity].
    rewrite Forall_forall in *. intros e He.
    now apply fully_patchable_patchable, Hall.
Qed.

(** X14.  The status tells the truth.  For entries with different names
    whose descriptors all have a token that is not empty, the run returns
    0 exactly when every file can be read and every descriptor of its list
    applies, each to the buffer left by the one before. *)
Theorem main_loop_status_zero_iff_all_applied
    (entries : list (bytes * list Descriptor)) (fs : FileSystem) (out : bytes) :
  NoDup (names entries) ->
  Forall (fun e => Forall (fun d => token d <> []) (snd e)) entries ->
  (fst (fst (main_loop entries fs out)) = 0%Z <->
   Forall (fully_patchable fs) entries).
Proof. apply main_loop_zero_iff. Qed.

Lemma main_loop_status_zero_iff_all_applied_witness :
  let fs := mkFS [("a.js", "socket=io.connect(c,b);")] [] [] in
  let entries := [("a.js", kPatchesWebsiteLibMin)] in
  NoDup (names entries) /\
  Forall (fun e => Forall (fun d => token d <> []) (snd e)) entries /\
  (fst (fst (main_loop entries fs [])) = 0%Z <->
   Forall (fully_patchable fs) entries).
Proof.
  intros fs entries.
  assert (Hnd : NoDup (names entries)).
  { unfold names, entries. simpl. constructor; [intros [] | constructor]. }
  assert (Htok : Forall (fun e => Forall (fun d => token d <> []) (snd e)) entries).
  { repeat constructor. discriminate. }
  split; [exact Hnd|]. split; [exact Htok|].
  exact (main_loop_status_zero_iff_all_applied entries fs [] Hnd Htok).
Defined.

Lemma WriteFileUTF8_then_write (fs : FileSystem) (path contents : bytes) :
  fst (WriteFileUTF8 fs path contents) = true ->
  file_contents (snd (WriteFileUTF8 fs path contents)) (c_str path)
  = Some contents.
Proof.
  unfold WriteFileUTF8, ofstream_write.
  destruct (existsb (bytes_eqb (c_str path)) (fs_unwritable fs));
    [discriminate|].
  intros _. unfold file_contents. simpl. apply lookup_store_same.
Qed.

(** X15.  What a run leaves on disk.  For entries with different names,
    the entries split into those the run went through and the rest, which
    begins with the entry that stopped the run and is empty exactly when
    the status is 0.  Every file of the first part that can be opened for
    writing holds the buffer that [Apply] left for the contents it had at
    the start; every file of the rest is as it was.  Nothing is rolled
    back when a later entry fails. *)
Theorem main_loop_disk_effect (entries : list (bytes * list Descriptor)) :
  forall (fs : FileSystem) (out : bytes) (code : Z) (fs' : FileSystem) (out' : bytes),
  NoDup (names entries) ->
  main_loop entries fs out = (code, fs', out') ->
  exists done rest,
    entries = done ++ rest /\
    (code = 0%Z <-> rest = []) /\
    (forall e, In e done ->
       existsb (bytes_eqb (c_str (fst e))) (fs_unwritable fs) = false ->
       file_contents fs' (c_str (fst e))
       = Some (snd (Apply (ReadFileUTF8 fs (fst e)) (snd e)))) /\
    (forall e, In e rest ->
       file_contents fs' (c_str (fst e)) = file_contents fs (c_str (fst e))).
Proof.
  induction entries as [|[file descs] entries IH];
    intros fs out code fs' out' Hnd H.
  - simpl in H. injection H as <- <- <-. exists [], [].
    repeat split; auto; intros e [].
  - inversion Hnd as [|? ? Hnotin Hnd']; subst.
    cbn [main_loop] in H.
    destruct (empty (ReadFileUTF8 fs file)).
    { injection H as <- <- <-. exists [], ((file, descs) :: entries).
      repeat split; auto; try discriminate. intros e []. }
    destruct (Apply (ReadFileUTF8 fs file) descs) as [tok contents'] eqn:A.
    destruct (negb (empty tok)).
    { injection H as <- <- <-. exists [], ((file, descs) :: entries).
      repeat split; auto; try discriminate. intros e []. }
    destruct (WriteFileUTF8 fs file contents') as [ok fs1] eqn:W.
    destruct (main_loop_frame _ _ _ _ _ _ H) as [Hu1 Hf1].
    assert (Hw : forall name,
               fs_unwritable fs1 = fs_unwritable fs /\
               (name <> c_str file \/
                existsb (bytes_eqb name) (fs_unwritable fs) = true ->
                file_contents fs1 name = file_contents fs name)).
    { intros name. pose proof (WriteFileUTF8_frame fs file contents' name) as Hw.
      now rewrite W in Hw. }
    assert (Hother : forall e, In e entries -> c_str (fst e) <> c_str file).
    { intros e He Heq. apply Hnotin. rewrite <- Heq.
      unfold names. now apply (in_map (fun e => c_str (fst e))). }
    destruct (IH _ _ _ _ _ Hnd' H) as (done & rest & -> & Hcode & Hdone & Hrest).
    exists ((file, descs) :: done), rest. repeat split; try apply Hcode; auto.
    + intros e [<-|He] Hwr; cbn [fst snd] in *.
      * rewrite (Hf1 (c_str file)) by (left; exact Hnotin).
        pose proof (WriteFileUTF8_then_write fs file contents') as Hc.
        rewrite W in Hc. cbn [fst snd] in Hc. rewrite A. cbn [snd].
        apply Hc. unfold WriteFileUTF8, ofstream_write in W.
        rewrite Hwr in W. now injection W as <- _.
      * assert (Hin : In e (done ++ rest)) by (apply in_or_app; now left).
        rewrite (Hdone e He) by (rewrite (proj1 (Hw [])); exact Hwr).
        rewrite (ReadFileUTF8_frame fs fs1); [reflexivity|].
        apply (proj2 (Hw _)). left. now apply Hother.
    + intros e He.
      assert (Hin : In e (done ++ rest)) by (apply in_or_app; now right).
      rewrite (Hrest e He). apply (proj2 (Hw _)). left. now apply Hother.
Qed.

Lemma main_loop_disk_effect_witness :
  let fs := mkFS [("a.js", "socket=io.connect(c,b);"); ("b.js", "AB")] [] [] in
  let entries := [("a.js", kPatchesWebsiteLibMin);
                  ("b.js", [mkDescriptor ReplaceOne "Z" "Z1"])] in
  let fs' := mkFS [("a.js", socket_connect_replacement); ("b.js", "AB")] [] [] in
  let out' := ("Patched file:(a.js)" ++ nl) ++
              "Unable to apply all patches to file:(b.js), token:(Z)" ++ nl in
  NoDup (names entries) /\
  main_loop entries fs [] = ((-1)%Z, fs', out') /\
  exists done rest,
    entries = done ++ rest /\
    ((-1)%Z = 0%Z <-> rest = []) /\
    (forall e, In e done ->
       existsb (bytes_eqb (c_str (fst e))) (fs_unwritable fs) = false ->
       file_contents fs' (c_str (fst e))
       = Some (snd (Apply (ReadFileUTF8 fs (fst e)) (snd e)))) /\
    (forall e, In e rest ->
       file_contents fs' (c_str (fst e)) = file_contents fs (c_str (fst e))).
Proof.
  intros fs entries fs' out'.
  assert (Hnd : NoDup (names entries)).
  { unfold names, entries. simpl.
    constructor; [intros [E|[]]; discriminate E|].
    constructor; [intros [] | constructor]. }
  assert (H : main_loop entries fs [] = ((-1)%Z, fs', out')) by reflexivity.
  split; [exact Hnd|]. split; [exact H|].
  exact (main_loop_disk_effect entries fs [] _ _ _ Hnd H).
Defined.

(** ** [main] *)

(** X16.  [main] changes no file but its two targets: whatever the file
    system, the argument and the order of the iteration, a file whose name
    is neither [<root>/controller/deviceInfo.js] nor
    [<root>/involved/website-lib/website-lib.min.js] has after the run the
    contents it had before. *)
Theorem main_leaves_other_files
    (fs : FileSystem) (unpacked : bytes) (reversed : bool) (name : bytes) :
  name <> c_str (path_append (path_append unpacked "controller") "deviceInfo.js") ->
  name <> c_str (path_append
                   (path_append (path_append unpacked "involved") "website-lib")
                   "website-lib.min.js") ->
  file_contents (snd (fst (main fs unpacked reversed))) name
  = file_contents fs name.
Proof.
  intros H1 H2. unfold main.
  destruct (negb (exists_ fs unpacked)); [reflexivity|].
  destruct (main_loop (if reversed then rev (patches unpacked) else patches unpacked)
                      fs []) as [[code fs'] out'] eqn:R.
  destruct (main_loop_frame _ _ _ _ _ _ R) as [_ Hf]. cbn [fst snd].
  apply Hf. left. unfold patches, names.
  destruct reversed; cbn [rev app map fst]; intros [E|[E|[]]]; congruence.
Qed.

Lemma main_leaves_other_files_witness :
  let fs := mkFS [("/g/controller/deviceInfo.js", "x");
                  ("/g/involved/website-lib/website-lib.min.js",
                   "socket=io.connect(c,b);");
                  ("/g/main.js", "socket=io.connect(c,b);")] ["/g"] [] in
  "/g/main.js" <> c_str (path_append (path_append "/g" "controller") "deviceInfo.js") /\
  "/g/main.js" <> c_str (path_append
                           (path_append (path_append "/g" "involved") "website-lib")
                           "website-lib.min.js") /\
  file_contents (snd (fst (main fs "/g" true))) "/g/main.js"
  = file_contents fs "/g/main.js".
Proof.
  intros fs.
  assert (H1 : "/g/main.js" <>
               c_str (path_append (path_append "/g" "controller") "deviceInfo.js"))
    by discriminate.
  assert (H2 : "/g/main.js" <>
               c_str (path_append
                        (path_append (path_append "/g" "involved") "website-lib")
                        "website-lib.min.js"))
    by discriminate.
  split; [exact H1|]. split; [exact H2|].
  exact (main_leaves_other_files fs "/g" true "/g/main.js" H1 H2).
Defined.






(** ** Applying an [ExplicitFunction] descriptor twice *)

Lemma matching_brace_app : forall (l x : bytes) d k,
  matching_brace l d = Some k -> matching_brace (l ++ x) d = Some k.
Proof.
  induction l as [|c l IH]; intros x d k H; simpl in *; [discriminate|].
  destruct (Byte.eqb c "{").
  - destruct (matching_brace l (S d)) as [k'|] eqn:E; [|discriminate].
    now rewrite (IH x _ _ E).
  - destruct (Byte.eqb c "}").
    + destruct d as [|[|d]]; [discriminate|exact H|].
      destruct (matching_brace l (S d)) as [k'|] eqn:E; [|discriminate].
      now rewrite (IH x _ _ E).
    + destruct (matching_brace l d) as [k'|] eqn:E; [|discriminate].
      now rewrite (IH x _ _ E).
Qed.

Lemma first_open_brace_app : forall (l r : bytes),
  existsb is_open_brace l = false ->
  first_open_brace (l ++ x7b :: r) = Some (length l).
Proof.
  induction l as [|c l IH]; intros r H; simpl in *; [reflexivity|].
  unfold is_open_brace in H at 1.
  destruct (Byte.eqb c "{"); [discriminate|]. simpl in H.
  now rewrite (IH r H).
Qed.

Lemma skipn_of_patched : forall (l : bytes) k b (x : bytes),
  k <= b -> b <= length l ->
  skipn k (firstn b l ++ x) = firstn (b - k) (skipn k l) ++ x.
Proof.
  induction l as [|c l IH]; intros k b x Hk Hb; simpl in Hb.
  - assert (b = 0) by lia. assert (k = 0) by lia. now subst.
  - destruct b as [|b]; [assert (k = 0) by lia; now subst|].
    destruct k as [|k]; [reflexivity|]. simpl. apply IH; lia.
Qed.

(** An [ExplicitFunction] descriptor that applies: the pieces of the file. *)
Lemma apply_desc_ExplicitFunction_pieces (file tok rep file' : bytes) :
  apply_desc (mkDescriptor ExplicitFunction tok rep) file = Some file' ->
  exists def o n,
    find (format_function tok) file = Some def /\
    first_open_brace (skipn def file) = Some o /\
    o < n /\ def + n < length file /\
    file' = firstn (def + o) file ++ rep ++ skipn (def + n) file.
Proof.
  unfold apply_desc. cbn [type token replacement].
  destruct (FindExplicitFunctionBody file tok) as [b e] eqn:F.
  destruct ((b =? 0) || (e =? 0)) eqn:Z; [discriminate|].
  intros H. injection H as <-.
  apply orb_false_elim in Z as [Zb Ze]. apply Nat.eqb_neq in Zb, Ze.
  destruct (FindExplicitFunctionBody_trace _ _ _ _ F)
    as (def & o & n & Hf & Ho & -> & -> & Hon & Hlen & _);
    [intros E; injection E; lia|].
  exists def, o, n. repeat split; auto.
  unfold replace. do 3 f_equal. lia.
Qed.

(** X18.  Applying twice changes nothing more.  Let the name of the
    function hold no opening brace, let no closing brace stand between the
    anchor and the body, and let the replacement be one brace-matched
    block.  When the descriptor is applied to a buffer, and the patched
    buffer is shorter than [2^64] bytes, applying the descriptor to the
    patched buffer succeeds and leaves it as it is. *)
Theorem explicit_function_twice (file tok rep file' : bytes) :
  existsb is_open_brace tok = false ->
  no_stray_close file tok = true ->
  closes_at_end rep = true ->
  (Z.of_nat (length file') < size_t_modulus)%Z ->
  apply_desc (mkDescriptor ExplicitFunction tok rep) file = Some file' ->
  apply_desc (mkDescriptor ExplicitFunction tok rep) file' = Some file'.
Proof.
  intros Htok Hclose Hrep Hlen Happly.
  destruct (apply_desc_ExplicitFunction_pieces _ _ _ _ Happly)
    as (def & o & n & Hf & Ho & Hon & Hn & Hfile).
  destruct (find_Some _ _ _ Hf) as (Hs & Hle & _).
  apply starts_with_inv in Hs.
  assert (Hrest : length (skipn def file) = length file - def) by apply length_skipn.
  destruct (first_open_brace_nth _ _ Ho) as [_ Holt].
  (* the replacement *)
  destruct rep as [|c body]; [discriminate|]. cbn [closes_at_end] in Hrep.
  apply andb_prop in Hrep as [Hc Hbody]. apply Byte.byte_dec_bl in Hc. subst c.
  destruct (matching_brace body 1) as [k|] eqn:M; [|discriminate].
  apply Nat.eqb_eq in Hbody.
  (* the anchor is where it was *)
  assert (Hanchor : existsb is_open_brace (format_function tok) = false).
  { unfold format_function. rewrite !existsb_app, Htok. reflexivity. }
  assert (Hge : length (format_function tok) <= o).
  { destruct (le_lt_dec (length (format_function tok)) o) as [|Hlt]; [assumption|].
    pose proof (first_open_existsb _ _ _ Ho Hlt) as Hex.
    rewrite Hs, firstn_exact, Hanchor in Hex. discriminate. }
  assert (Hf' : find (format_function tok) file' = Some def).
  { apply (find_prefix_determined _ _ file); [exact Hf|].
    rewrite Hfile. apply firstn_of_patched; lia. }
  (* the bytes from the anchor on *)
  assert (Hskip : skipn def file'
                  = firstn o (skipn def file) ++ x7b :: body ++ skipn (def + n) file).
  { rewrite Hfile, skipn_of_patched by lia. do 2 f_equal. lia. }
  assert (Hpre : length (firstn o (skipn def file)) = o)
    by (apply firstn_length_le; lia).
  assert (Ho' : first_open_brace (skipn def file') = Some o).
  { rewrite Hskip, first_open_brace_app; [now rewrite Hpre|].
    apply (first_open_before _ o); [exact Ho | lia]. }
  assert (Hclose' : no_stray_close file' tok = true).
  { unfold no_stray_close in *. rewrite Hf in Hclose. rewrite Ho in Hclose.
    rewrite Hf', Ho', Hskip. rewrite <- Hpre at 1. now rewrite firstn_exact. }
  assert (Htail : skipn (S (def + o)) file' = body ++ skipn (def + n) file).
  { replace (S (def + o)) with (def + S o) by lia.
    rewrite <- skipn_plus, Hskip.
    replace (S o) with (length (firstn o (skipn def file)) + 1) by lia.
    now rewrite skipn_past. }
  assert (Hdoc : documented_body file' tok = Some (def + o, S (def + o) + k)).
  { unfold documented_body. rewrite Hf', Ho', Htail.
    now rewrite (matching_brace_app _ _ _ _ M). }
  rewrite (apply_desc_documented _ _ _ Hlen Hclose'), Hdoc.
  assert (Hlen' : length file' = def + o + S (length body) + (length file - (def + n))).
  { rewrite Hfile, !length_app, firstn_length_le, length_skipn by lia.
    simpl. lia. }
  destruct (S (S (def + o) + k) =? length file') eqn:E.
  { apply Nat.eqb_eq in E. lia. }
  f_equal. rewrite Hfile at 3. f_equal.
  - rewrite Hfile. rewrite <- (Nat.add_0_r (def + o)) at 1.
    assert (Hb : length (firstn (def + o) file) = def + o)
      by (apply firstn_length_le; lia).
    rewrite <- Hb at 1. rewrite firstn_past. simpl. now rewrite app_nil_r.
  - f_equal. rewrite Hfile.
    assert (Hb : length (firstn (def + o) file ++ x7b :: body) = S (S (def + o) + k)).
    { rewrite length_app, firstn_length_le by lia. simpl. lia. }
    change (firstn (def + o) file ++ (x7b :: body) ++ skipn (def + n) file)
      with (firstn (def + o) file ++ x7b :: body ++ skipn (def + n) file).
    replace (firstn (def + o) file ++ x7b :: body ++ skipn (def + n) file)
      with ((firstn (def + o) file ++ x7b :: body) ++ skipn (def + n) file)
      by (now rewrite <- app_assoc).
    rewrite <- Hb. apply skipn_exact.
Qed.

Lemma explicit_function_twice_witness :
  let file := "function postRunningProcessData(a){a} " in
  let file' := "function postRunningProcessData(a)" ++
               postRunningProcessData_replacement ++ " " in
  existsb is_open_brace "postRunningProcessData" = false /\
  no_stray_close file "postRunningProcessData" = true /\
  closes_at_end postRunningProcessData_replacement = true /\
  (Z.of_nat (length file') < size_t_modulus)%Z /\
  apply_desc (mkDescriptor ExplicitFunction "postRunningProcessData"
                postRunningProcessData_replacement) file = Some file' /\
  apply_desc (mkDescriptor ExplicitFunction "postRunningProcessData"
                postRunningProcessData_replacement) file' = Some file'.
Proof.
  intros file file'.
  assert (H1 : existsb is_open_brace "postRunningProcessData" = false) by reflexivity.
  assert (H2 : no_stray_close file "postRunningProcessData" = true) by reflexivity.
  assert (H3 : closes_at_end postRunningProcessData_replacement = true) by reflexivity.
  assert (H4 : (Z.of_nat (length file') < size_t_modulus)%Z) by reflexivity.
  assert (H5 : apply_desc (mkDescriptor ExplicitFunction "postRunningProcessData"
                             postRunningProcessData_replacement) file = Some file')
    by reflexivity.
  split; [exact H1|]. split; [exact H2|]. split; [exact H3|].
  split; [exact H4|]. split; [exact H5|].
  exact (explicit_function_twice file "postRunningProcessData"
           postRunningProcessData_replacement file' H1 H2 H3 H4 H5).
Defined.
